(** * The CSS selector builder of [src/05-objects-tasks.js]

    A shallow embedding of class [MyElement] and of the facade object
    [cssSelectorBuilder].  JavaScript objects live in an explicit store;
    a method is a computation that reads and writes the store and either
    returns a value or throws. *)

From stdpp Require Import base list strings.

(** ** Objects and the store *)

(** An object reference is the index of the object in the store. *)
Abbreviation loc := nat (only parsing).

(** The [child] field starts as the empty object literal and is later
    overwritten with a reference to a [MyElement]. *)
Inductive slot :=
| EmptyObject
| Ref (l : loc).

(** The fields an instance of [MyElement] is given by its constructor.
    [parent] is [None] where the constructor received no third argument. *)
Record MyElement := mkMyElement {
  type : string;
  value : string;
  sym : string;
  end_ : string;
  child : slot;
  parent : option loc;
  validError : string;
  partsError : string;
}.

(** What [combine] returns is an object whose [stringify] closure captured
    [selector1], [combinator] and [selector2]. *)
Inductive object :=
| Fragment (e : MyElement)
| Combined (selector1 : loc) (combinator : string) (selector2 : loc).

Abbreviation heap := (list object) (only parsing).

Definition set_child_field (e : MyElement) (c : slot) : MyElement :=
  {| type := type e; value := value e; sym := sym e; end_ := end_ e;
     child := c; parent := parent e;
     validError := validError e; partsError := partsError e |}.

(** ** Computations over the store *)

Inductive error :=
| Error (message : string)   (* [new Error(message)] *)
| TypeError.                 (* a method looked up on an object without it *)

Inductive outcome (A : Type) :=
| Return (a : A)
| Throw (e : error).
Arguments Return {A} a.
Arguments Throw {A} e.

(** The store survives a throw, as it does in JavaScript. *)
Definition M (A : Type) : Type := heap -> outcome A * heap.

Definition ret {A} (a : A) : M A := fun h => (Return a, h).

Definition bind {A B} (m : M A) (k : A -> M B) : M B :=
  fun h =>
    match m h with
    | (Return a, h') => k a h'
    | (Throw e, h') => (Throw e, h')
    end.

Definition throw {A} (e : error) : M A := fun h => (Throw e, h).

Definition fmap_M {A B} (f : A -> B) (m : M A) : M B :=
  bind m (fun a => ret (f a)).

Notation "'let!' x ':=' m 'in' k" := (bind m (fun x => k))
  (at level 10, x name, m at level 100, k at level 200).
Notation "m ';;' k" := (bind m (fun _ => k))
  (at level 100, k at level 200, right associativity).

(** [new]: the object is placed at the next free index. *)
Definition alloc (o : object) : M loc :=
  fun h => (Return (length h), h ++ [o]).

(** Reading [this] inside a method of [MyElement]. *)
Definition self (this : loc) : M MyElement :=
  fun h =>
    match h !! this with
    | Some (Fragment e) => (Return e, h)
    | _ => (Throw TypeError, h)
    end.

(** [this.child = c] *)
Definition set_child (this : loc) (c : loc) : M unit :=
  fun h =>
    match h !! this with
    | Some (Fragment e) =>
        (Return tt, <[this := Fragment (set_child_field e (Ref c))]> h)
    | _ => (Throw TypeError, h)
    end.

Notation "a === b" := (String.eqb a b) (at level 70, no associativity).

Module MyElementClass.

Definition validError_message : string :=
  "Element, id and pseudo-element should not occur more then one time inside the selector".

Definition partsError_message : string :=
  "Selector parts should be arranged in the following order: element, id, class, attribute, pseudo-class, pseudo-element".

(** [constructor(value, type, parent)]: the conditionals assign [sym] and
    [end] one after the other. *)
Definition constructor (value type : string) (parent : option loc) : M loc :=
  let sym := EmptyString in
  let end_ := EmptyString in
  let sym := if type === "elem" then EmptyString else sym in
  let sym := if type === "id" then "#" else sym in
  let sym := if type === "class" then "." else sym in
  let sym := if type === "attr" then "[" else sym in
  let end_ := if type === "attr" then "]" else end_ in
  let sym := if type === "pseudoClass" then ":" else sym in
  let sym := if type === "pseudoElement" then "::" else sym in
  alloc (Fragment
    {| type := type; value := value; sym := sym; end_ := end_;
       child := EmptyObject; parent := parent;
       validError := validError_message;
       partsError := partsError_message |}).

(** [element()] declares no parameter. *)
Definition element (this : loc) : M string :=
  let! e := self this in
  if type e === "elem" then throw (Error (validError e)) else
  if negb (type e === "elem") then throw (Error (partsError e)) else
  ret (type e).

(** In the methods below [this.child = new MyElement(..); return this.child]
    returns the reference just stored. *)
Definition id (this : loc) (val : string) : M loc :=
  let! e := self this in
  if type e === "id" then throw (Error (validError e)) else
  if negb (type e === "elem") then throw (Error (partsError e)) else
  let! c := constructor val "id" (Some this) in
  set_child this c ;;
  ret c.

Definition class (this : loc) (val : string) : M loc :=
  let! e := self this in
  if (type e === "attr") || (type e === "pseudoClass")
     || (type e === "pseudoElement")
  then throw (Error (partsError e)) else
  let! c := constructor val "class" (Some this) in
  set_child this c ;;
  ret c.

Definition attr (this : loc) (val : string) : M loc :=
  let! e := self this in
  if (type e === "pseudoClass") || (type e === "pseudoElement")
  then throw (Error (partsError e)) else
  let! c := constructor val "attr" (Some this) in
  set_child this c ;;
  ret c.

Definition pseudoClass (this : loc) (val : string) : M loc :=
  let! e := self this in
  if type e === "pseudoElement" then throw (Error (partsError e)) else
  let! c := constructor val "pseudoClass" (Some this) in
  set_child this c ;;
  ret c.

Definition pseudoElement (this : loc) (val : string) : M loc :=
  let! e := self this in
  if type e === "pseudoElement" then throw (Error (validError e)) else
  let! c := constructor val "pseudoElement" (Some this) in
  set_child this c ;;
  ret c.

End MyElementClass.

(** [stringify()] of both kinds of object.  The recursion follows references
    into the store, so it is bounded by [fuel]; [None] stands for a reference
    that leads to no object, or for fuel that ran out. *)
Fixpoint stringify_fuel (fuel : nat) (h : heap) (l : loc) : option string :=
  match fuel with
  | O => None
  | S fuel =>
      match h !! l with
      | None => None
      | Some (Fragment e) =>
          match
            match parent e with
            | Some p => stringify_fuel fuel h p
            | None => Some EmptyString
            end
          with
          | Some par => Some (par +:+ sym e +:+ value e +:+ end_ e)
          | None => None
          end
      | Some (Combined selector1 combinator selector2) =>
          match stringify_fuel fuel h selector1,
                stringify_fuel fuel h selector2 with
          | Some s1, Some s2 => Some (s1 +:+ " " +:+ combinator +:+ " " +:+ s2)
          | _, _ => None
          end
      end
  end.

(** An object at index [l] only refers to objects below [l], so [length h]
    steps are enough (see [stringify_total]). *)
Definition stringify (h : heap) (l : loc) : option string :=
  stringify_fuel (length h) h l.

(** An object as a list of named properties that hold references;
    [o.name] is [None] where JavaScript yields [undefined]. *)
Fixpoint get_property (o : list (string * loc)) (name : string) : option loc :=
  match o with
  | [] => None
  | p :: o' => if p.1 === name then Some p.2 else get_property o' name
  end.

(** [this] at the top level of the module: the object the module exports
    when it starts.  The file assigns no property to it (it replaces
    [module.exports] as a whole in its last statement). *)
Definition module_this : list (string * loc) := [].

Module cssSelectorBuilder.

Definition element (value : string) : M loc :=
  MyElementClass.constructor value "elem" None.

Definition id (value : string) : M loc :=
  MyElementClass.constructor value "id" None.

Definition class (value : string) : M loc :=
  MyElementClass.constructor value "class" None.

Definition attr (value : string) : M loc :=
  MyElementClass.constructor value "attr" None.

Definition pseudoClass (value : string) : M loc :=
  MyElementClass.constructor value "pseudoClass" None.

Definition pseudoElement (value : string) : M loc :=
  MyElementClass.constructor value "pseudoElement" None.

Definition combine (selector1 : loc) (combinator : string) (selector2 : loc)
  : M loc :=
  alloc (Combined selector1 combinator selector2).

(** [stringify] of the facade is an arrow function, so its [this] is
    [module_this]; calling a method of [undefined] is a type error. *)
Definition stringify : M string :=
  fun h =>
    match get_property module_this "element" with
    | None => (Throw TypeError, h)
    | Some element =>
        match stringify h element with
        | Some s => (Return s, h)
        | None => (Throw TypeError, h)
        end
    end.

End cssSelectorBuilder.

(** ** The six kinds of fragment, as the specification names them *)

Inductive Kind :=
| KElement
| KId
| KClass
| KAttribute
| KPseudoClass
| KPseudoElement.

#[global] Instance Kind_eq_dec : EqDecision Kind.
Proof. solve_decision. Defined.

(** The tag the source stores in [type] for each kind. *)
Definition type_name (k : Kind) : string :=
  match k with
  | KElement => "elem"
  | KId => "id"
  | KClass => "class"
  | KAttribute => "attr"
  | KPseudoClass => "pseudoClass"
  | KPseudoElement => "pseudoElement"
  end.

Definition kind_of_type (t : string) : option Kind :=
  if t === "elem" then Some KElement
  else if t === "id" then Some KId
  else if t === "class" then Some KClass
  else if t === "attr" then Some KAttribute
  else if t === "pseudoClass" then Some KPseudoClass
  else if t === "pseudoElement" then Some KPseudoElement
  else None.

(** Order rank: element < id < class < attribute < pseudo-class <
    pseudo-element. *)
Definition rank (k : Kind) : nat :=
  match k with
  | KElement => 0
  | KId => 1
  | KClass => 2
  | KAttribute => 3
  | KPseudoClass => 4
  | KPseudoElement => 5
  end.

Definition non_repeatable (k : Kind) : bool :=
  match k with
  | KElement | KId | KPseudoElement => true
  | KClass | KAttribute | KPseudoClass => false
  end.

(** The ordering and uniqueness rule in the words of the specification:
    what a chaining call of kind [newKind] on a fragment of kind [selfKind]
    is to do. *)
Inductive verdict :=
| Duplicate
| OutOfOrder
| Append.

Definition ordering_rule (selfKind newKind : Kind) : verdict :=
  if non_repeatable newKind && bool_decide (selfKind = newKind) then Duplicate
  else if rank newKind <? rank selfKind then OutOfOrder
  else Append.

(** The rendering of one fragment in the words of the specification. *)
Definition prefix (k : Kind) : string :=
  match k with
  | KElement => EmptyString
  | KId => "#"
  | KClass => "."
  | KAttribute => "["
  | KPseudoClass => ":"
  | KPseudoElement => "::"
  end.

Definition closing (k : Kind) : string :=
  match k with
  | KAttribute => "]"
  | _ => EmptyString
  end.

Definition rendering (item : Kind * string) : string :=
  prefix item.1 +:+ item.2 +:+ closing item.1.

Definition concat_strings (l : list string) : string :=
  foldr String.append EmptyString l.

(** ** Calls of the public surface *)

Inductive val :=
| Obj (l : loc)
| Str (s : string).

Inductive call :=
| builder_call (k : Kind) (value : string)
    (* [cssSelectorBuilder.element(value)], [.id(value)], ... *)
| method_call (this : loc) (k : Kind) (value : string)
    (* [this.element(value)], [this.id(value)], ... *)
| combine_call (selector1 : loc) (combinator : string) (selector2 : loc).

Definition start (k : Kind) : string -> M loc :=
  match k with
  | KElement => cssSelectorBuilder.element
  | KId => cssSelectorBuilder.id
  | KClass => cssSelectorBuilder.class
  | KAttribute => cssSelectorBuilder.attr
  | KPseudoClass => cssSelectorBuilder.pseudoClass
  | KPseudoElement => cssSelectorBuilder.pseudoElement
  end.

(** A surplus argument of a call is dropped: [this.element(value)] runs
    [element()]. *)
Definition method (k : Kind) (this : loc) (value : string) : M val :=
  match k with
  | KElement => fmap_M Str (MyElementClass.element this)
  | KId => fmap_M Obj (MyElementClass.id this value)
  | KClass => fmap_M Obj (MyElementClass.class this value)
  | KAttribute => fmap_M Obj (MyElementClass.attr this value)
  | KPseudoClass => fmap_M Obj (MyElementClass.pseudoClass this value)
  | KPseudoElement => fmap_M Obj (MyElementClass.pseudoElement this value)
  end.

Definition exec (c : call) : M val :=
  match c with
  | builder_call k value => fmap_M Obj (start k value)
  | method_call this k value => method k this value
  | combine_call selector1 combinator selector2 =>
      fmap_M Obj (cssSelectorBuilder.combine selector1 combinator selector2)
  end.

(** A caller can only pass references to objects that exist. *)
Definition call_ok (h : heap) (c : call) : Prop :=
  match c with
  | builder_call _ _ => True
  | method_call this _ _ => this < length h
  | combine_call selector1 _ selector2 =>
      selector1 < length h /\ selector2 < length h
  end.

(** The stores a program can produce with the public surface, starting from
    the empty store.  A call that throws is a step too. *)
Inductive reachable : heap -> Prop :=
| reachable_init : reachable []
| reachable_step h c :
    reachable h -> call_ok h c -> reachable (exec c h).2.

(** [m.stringify()] for an expression [m] evaluated in store [h]. *)
Definition eval_stringify (m : M loc) (h : heap) : option string :=
  match m h with
  | (Return l, h') => stringify h' l
  | (Throw _, _) => None
  end.

(** ** Chains *)

(** The fragments of the chain that ends in [l], first to last, each as its
    kind and its stored value; read off the [parent] links. *)
Fixpoint chain_fuel (fuel : nat) (h : heap) (l : loc)
  : option (list (Kind * string)) :=
  match fuel with
  | O => None
  | S fuel =>
      match h !! l with
      | Some (Fragment e) =>
          match kind_of_type (type e),
                match parent e with
                | Some p => chain_fuel fuel h p
                | None => Some []
                end
          with
          | Some k, Some items => Some (items ++ [(k, value e)])
          | _, _ => None
          end
      | _ => None
      end
  end.

Definition chain (h : heap) (l : loc) : option (list (Kind * string)) :=
  chain_fuel (length h) h l.

(** Kinds in non-decreasing order rank. *)
Fixpoint ordered (ks : list Kind) : bool :=
  match ks with
  | a :: rest =>
      match rest with
      | b :: _ => (rank a <=? rank b) && ordered rest
      | [] => true
      end
  | [] => true
  end.

Definition occurrences (k : Kind) (ks : list Kind) : nat :=
  length (filter (fun x => x = k) ks).

(** The fragment a successful call of kind [k] constructs. *)
Definition new_fragment (k : Kind) (v : string) (p : option loc) : MyElement :=
  {| type := type_name k; value := v; sym := prefix k; end_ := closing k;
     child := EmptyObject; parent := p;
     validError := MyElementClass.validError_message;
     partsError := MyElementClass.partsError_message |}.

(** Two objects that differ at most in the [child] field. *)
Definition same_but_child (o o' : object) : Prop :=
  match o, o' with
  | Fragment e, Fragment e' => exists c, e' = set_child_field e c
  | Combined s1 c s2, Combined s1' c' s2' => s1 = s1' /\ c = c' /\ s2 = s2'
  | _, _ => False
  end.

(** [h'] holds every object of [h], unchanged except for [child] fields. *)
Definition extends (h h' : heap) : Prop :=
  forall l o, h !! l = Some o ->
    exists o', h' !! l = Some o' /\ same_but_child o o'.

(** ** The invariant of reachable stores *)

(** A predecessor was allocated earlier, is a fragment, and the ordering
    rule let a fragment of kind [k] be appended to it. *)
Definition parent_inv (h : heap) (l : loc) (k : Kind) (p : option loc) : Prop :=
  match p with
  | None => True
  | Some p =>
      p < l /\
      exists pe pk, h !! p = Some (Fragment pe) /\ type pe = type_name pk /\
                    ordering_rule pk k = Append
  end.

Definition object_inv (h : heap) (l : loc) (o : object) : Prop :=
  match o with
  | Fragment e =>
      exists k, type e = type_name k /\ sym e = prefix k /\
                end_ e = closing k /\
                validError e = MyElementClass.validError_message /\
                partsError e = MyElementClass.partsError_message /\
                parent_inv h l k (parent e)
  | Combined selector1 _ selector2 => selector1 < l /\ selector2 < l
  end.

Definition heap_inv (h : heap) : Prop :=
  forall l o, h !! l = Some o -> object_inv h l o.

(** What a call does to the store and what it yields, case by case. *)
Inductive effect (h : heap) : call -> outcome val -> heap -> Prop :=
| effect_start k v :
    effect h (builder_call k v) (Return (Obj (length h)))
      (h ++ [Fragment (new_fragment k v None)])
| effect_combine s1 c s2 :
    effect h (combine_call s1 c s2) (Return (Obj (length h)))
      (h ++ [Combined s1 c s2])
| effect_no_method this k v :
    (forall e, h !! this <> Some (Fragment e)) ->
    effect h (method_call this k v) (Throw TypeError) h
| effect_duplicate this e sk k v :
    h !! this = Some (Fragment e) -> type e = type_name sk ->
    ordering_rule sk k = Duplicate ->
    effect h (method_call this k v)
      (Throw (Error MyElementClass.validError_message)) h
| effect_out_of_order this e sk k v :
    h !! this = Some (Fragment e) -> type e = type_name sk ->
    ordering_rule sk k = OutOfOrder ->
    effect h (method_call this k v)
      (Throw (Error MyElementClass.partsError_message)) h
| effect_append this e sk k v :
    h !! this = Some (Fragment e) -> type e = type_name sk ->
    ordering_rule sk k = Append ->
    effect h (method_call this k v) (Return (Obj (length h)))
      (<[this := Fragment (set_child_field e (Ref (length h)))]>
         (h ++ [Fragment (new_fragment k v (Some this))])).

Definition dq : string := String (Ascii.ascii_of_nat 34) EmptyString.

(** ** Programs: calls run one after the other *)

Definition call_okb (h : heap) (c : call) : bool :=
  match c with
  | builder_call _ _ => true
  | method_call this _ _ => this <? length h
  | combine_call selector1 _ selector2 =>
      (selector1 <? length h) && (selector2 <? length h)
  end.

(** The store after the calls [cs], run in order from store [h]. *)
Fixpoint run (cs : list call) (h : heap) : option heap :=
  match cs with
  | [] => Some h
  | c :: cs => if call_okb h c then run cs (exec c h).2 else None
  end.

(** [later h h']: a program takes store [h] to store [h']. *)
Inductive later (h : heap) : heap -> Prop :=
| later_now : later h h
| later_step h' c :
    later h h' -> call_ok h' c -> later h (exec c h').2.

(** The two invariants of a chain of kinds [ks] whose last kind is [last]:
    non-decreasing order rank (so no kind outranks the last one) and at
    most one occurrence of each non-repeatable kind. *)
Definition good_chain (ks : list Kind) (last : Kind) : Prop :=
  ordered ks = true /\
  Forall (fun x => rank x <= rank last) ks /\
  forall k, non_repeatable k = true -> occurrences k ks <= 1.

(** ** A sample program

    [element('div').id('main').class('container').class('draggable')],
    then [element('table')], then [combine] of the two with ['+']. *)
Definition sample_program : list call :=
  [ builder_call KElement "div";
    method_call 0 KId "main";
    method_call 1 KClass "container";
    method_call 2 KClass "draggable";
    builder_call KElement "table";
    combine_call 3 "+" 4 ].

Definition sample_store : heap := default [] (run sample_program []).

(** ** Selector expressions

    What a caller writes with the facade: a chain
    [builder.k(v).k1(v1)...kn(vn)], or [builder.combine(s1, c, s2)]
    of two such expressions. *)

(** The chaining calls [items], each made on what the one before returned,
    the first on [l].  A method that returned a string would leave nothing
    to call the next one on. *)
Fixpoint extend (l : loc) (items : list (Kind * string)) : M loc :=
  match items with
  | [] => ret l
  | item :: rest =>
      let! r := method item.1 l item.2 in
      match r with
      | Obj l' => extend l' rest
      | Str _ => throw TypeError
      end
  end.

Inductive selector :=
| Simple (k : Kind) (v : string) (rest : list (Kind * string))
| Complex (s1 : selector) (combinator : string) (s2 : selector).

(** Arguments are evaluated left to right, then [combine] is called. *)
Fixpoint build (s : selector) : M loc :=
  match s with
  | Simple k v rest =>
      let! l := start k v in
      extend l rest
  | Complex s1 combinator s2 =>
      let! selector1 := build s1 in
      let! selector2 := build s2 in
      cssSelectorBuilder.combine selector1 combinator selector2
  end.

(** The string a selector expression stands for. *)
Fixpoint render (s : selector) : string :=
  match s with
  | Simple k v rest => concat_strings (map rendering ((k, v) :: rest))
  | Complex s1 combinator s2 =>
      render s1 +:+ " " +:+ combinator +:+ " " +:+ render s2
  end.

(** The verdict on the first call of a chain that the ordering rule does not
    let through; [Append] when it lets all of them through. *)
Fixpoint first_violation (k : Kind) (ks : list Kind) : verdict :=
  match ks with
  | [] => Append
  | k' :: ks' =>
      match ordering_rule k k' with
      | Append => first_violation k' ks'
      | Duplicate => Duplicate
      | OutOfOrder => OutOfOrder
      end
  end.

(** The grammar element?, id?, class*, attribute*, pseudo-class*,
    pseudo-element? on a list of kinds. *)
Definition valid_kinds (ks : list Kind) : bool :=
  ordered ks &&
  forallb (fun k => occurrences k ks <=? 1) [KElement; KId; KPseudoElement].

Fixpoint well_ordered (s : selector) : bool :=
  match s with
  | Simple k _ rest => valid_kinds (k :: map fst rest)
  | Complex s1 _ s2 => well_ordered s1 && well_ordered s2
  end.

(** The [child] link: it leads to a fragment constructed later whose
    [parent] leads back. *)
Definition child_inv (h : heap) : Prop :=
  forall f e c, h !! f = Some (Fragment e) -> child e = Ref c ->
    f < c /\ exists ce, h !! c = Some (Fragment ce) /\ parent ce = Some f.

(** The expression of the comment above [MyElement]:
    [div#main.container.draggable + table#data ~ tr:nth-of-type(even)   td:nth-of-type(even)]. *)
Definition sample_selector : selector :=
  Complex
    (Simple KElement "div"
       [(KId, "main"); (KClass, "container"); (KClass, "draggable")])
    "+"
    (Complex
       (Simple KElement "table" [(KId, "data")])
       "~"
       (Complex
          (Simple KElement "tr" [(KPseudoClass, "nth-of-type(even)")])
          " "
          (Simple KElement "td" [(KPseudoClass, "nth-of-type(even)")]))).

(** [element('a').pseudoElement('before')] *)
Definition pseudo_store : heap :=
  default []
    (run [builder_call KElement "a"; method_call 0 KPseudoElement "before"] []).

(** ** What the calls compute *)

Lemma start_spec k v (h : heap) :
  start k v h = (Return (length h), h ++ [Fragment (new_fragment k v None)]).
Proof. destruct k; reflexivity. Qed.

Lemma lookup_snoc_old (h : heap) x l o :
  h !! l = Some o -> (h ++ [x]) !! l = Some o.
Proof. intros H. by apply lookup_app_l_Some. Qed.

Lemma method_spec (h : heap) this e sk k v :
  h !! this = Some (Fragment e) ->
  type e = type_name sk ->
  method k this v h =
    match ordering_rule sk k with
    | Duplicate => (Throw (Error (validError e)), h)
    | OutOfOrder => (Throw (Error (partsError e)), h)
    | Append =>
        (Return (Obj (length h)),
         <[this := Fragment (set_child_field e (Ref (length h)))]>
           (h ++ [Fragment (new_fragment k v (Some this))]))
    end.
Proof.
  intros Hthis Htype.
  pose proof (fun x => lookup_snoc_old h x this _ Hthis) as Hsnoc.
  destruct sk, k;
    unfold method, fmap_M, bind, MyElementClass.element, MyElementClass.id,
      MyElementClass.class, MyElementClass.attr, MyElementClass.pseudoClass,
      MyElementClass.pseudoElement, self, set_child, throw, ret,
      MyElementClass.constructor, alloc, bind;
    rewrite Hthis, Htype; cbn; rewrite ?Hsnoc; reflexivity.
Qed.

Lemma ordering_rule_of_inv (h : heap) l e :
  object_inv h l (Fragment e) ->
  exists k, type e = type_name k /\
            validError e = MyElementClass.validError_message /\
            partsError e = MyElementClass.partsError_message.
Proof. intros (k & ? & _ & _ & ? & ? & _). eauto. Qed.

Lemma exec_effect (h : heap) c :
  heap_inv h -> effect h c (exec c h).1 (exec c h).2.
Proof.
  intros Hinv. destruct c as [k v|this k v|s1 c s2].
  - cbn. unfold fmap_M, bind, ret. rewrite start_spec. cbn. constructor.
  - cbn. destruct (h !! this) as [[e|s1 c s2]|] eqn:Hthis.
    + destruct (ordering_rule_of_inv h this e (Hinv _ _ Hthis))
        as (sk & Htype & Hv & Hp).
      rewrite (method_spec h this e sk k v Hthis Htype), Hv, Hp.
      destruct (ordering_rule sk k) eqn:Hrule; cbn;
        [eapply effect_duplicate|eapply effect_out_of_order|
         eapply effect_append]; eauto.
    + assert (method k this v h = (Throw TypeError, h)) as ->.
      { destruct k; cbn;
          unfold fmap_M, bind, MyElementClass.element, MyElementClass.id,
            MyElementClass.class, MyElementClass.attr,
            MyElementClass.pseudoClass, MyElementClass.pseudoElement,
            self, bind; by rewrite Hthis. }
      cbn. constructor. congruence.
    + assert (method k this v h = (Throw TypeError, h)) as ->.
      { destruct k; cbn;
          unfold fmap_M, bind, MyElementClass.element, MyElementClass.id,
            MyElementClass.class, MyElementClass.attr,
            MyElementClass.pseudoClass, MyElementClass.pseudoElement,
            self, bind; by rewrite Hthis. }
      cbn. constructor. congruence.
  - cbn. constructor.
Qed.

(** ** Stores only grow, and only [child] fields change *)

Lemma same_but_child_refl o : same_but_child o o.
Proof.
  destruct o as [e|]; cbn; [|done].
  exists (child e). by destruct e.
Qed.

Lemma same_but_child_trans o1 o2 o3 :
  same_but_child o1 o2 -> same_but_child o2 o3 -> same_but_child o1 o3.
Proof.
  destruct o1, o2, o3; cbn; try done.
  - intros [c ->] [c' ->]. by exists c'.
  - intros (-> & -> & ->) (-> & -> & ->). done.
Qed.

Lemma extends_refl (h : heap) : extends h h.
Proof. intros l o H. exists o. split; [done|apply same_but_child_refl]. Qed.

Lemma extends_trans (h1 h2 h3 : heap) :
  extends h1 h2 -> extends h2 h3 -> extends h1 h3.
Proof.
  intros H12 H23 l o H.
  destruct (H12 _ _ H) as (o2 & H2 & S2).
  destruct (H23 _ _ H2) as (o3 & H3 & S3).
  exists o3. split; [done|]. by eapply same_but_child_trans.
Qed.

Lemma extends_snoc (h : heap) x : extends h (h ++ [x]).
Proof.
  intros l o H. exists o.
  split; [by apply lookup_snoc_old|apply same_but_child_refl].
Qed.

Lemma extends_set_child (h : heap) this e c :
  h !! this = Some (Fragment e) ->
  extends h (<[this := Fragment (set_child_field e c)]> h).
Proof.
  intros Hthis l o H. destruct (decide (l = this)) as [->|Hne].
  - exists (Fragment (set_child_field e c)). split.
    + apply list_lookup_insert_eq. by eapply lookup_lt_Some.
    + rewrite Hthis in H. injection H as <-. cbn. by exists c.
  - exists o. split; [|apply same_but_child_refl].
    by rewrite list_lookup_insert_ne.
Qed.

Lemma effect_extends (h : heap) c r h' : effect h c r h' -> extends h h'.
Proof.
  destruct 1; try apply extends_refl; try apply extends_snoc.
  eapply extends_trans; [apply extends_snoc|].
  apply extends_set_child. by apply lookup_snoc_old.
Qed.

Lemma effect_length (h : heap) c r h' :
  effect h c r h' -> length h <= length h' <= S (length h).
Proof.
  destruct 1; rewrite ?length_insert, ?length_app; cbn; lia.
Qed.

Lemma extends_length (h h' : heap) : extends h h' -> length h <= length h'.
Proof.
  intros H. destruct (decide (length h = 0)) as [|Hne]; [lia|].
  destruct (lookup_lt_is_Some_2 h (length h - 1)) as [o Ho]; [lia|].
  destruct (H _ _ Ho) as (o' & Ho' & _).
  apply lookup_lt_Some in Ho'. lia.
Qed.

(** ** The invariant holds in every reachable store *)

Lemma parent_inv_extends (h h' : heap) l k p :
  extends h h' -> parent_inv h l k p -> parent_inv h' l k p.
Proof.
  intros Hext. destruct p as [p|]; cbn; [|done].
  intros (Hlt & pe & pk & Hp & Ht & Hr). split; [done|].
  destruct (Hext _ _ Hp) as ([pe'|] & Hp' & Hs); cbn in Hs; [|done].
  destruct Hs as [c ->]. exists (set_child_field pe c), pk. by cbn.
Qed.

Lemma object_inv_extends (h h' : heap) l o o' :
  extends h h' -> same_but_child o o' -> object_inv h l o ->
  object_inv h' l o'.
Proof.
  intros Hext Hs. destruct o as [e|s1 c s2], o' as [e'|s1' c' s2'];
    cbn in Hs; try done.
  - destruct Hs as [c ->]. cbn.
    intros (k & ? & ? & ? & ? & ? & Hp). exists k.
    repeat split; try done. by eapply parent_inv_extends.
  - destruct Hs as (-> & -> & ->). done.
Qed.

Lemma effect_inv (h : heap) c r h' :
  heap_inv h -> call_ok h c -> effect h c r h' -> heap_inv h'.
Proof.
  intros Hinv Hok Heff.
  pose proof (effect_extends _ _ _ _ Heff) as Hext.
  assert (Hold : forall l o', l < length h -> h' !! l = Some o' ->
                              object_inv h' l o').
  { intros l o' Hl Ho'.
    destruct (lookup_lt_is_Some_2 h l Hl) as [o Ho].
    destruct (Hext _ _ Ho) as (o'' & Ho'' & Hs).
    rewrite Ho' in Ho''. injection Ho'' as <-.
    eapply object_inv_extends; eauto. }
  destruct Heff; try done.
  - intros l o Ho. destruct (decide (l < length h)) as [Hl|Hl]; [eauto|].
    apply lookup_app_Some in Ho as [Ho|[_ Ho]];
      [apply lookup_lt_Some in Ho; lia|].
    apply list_lookup_singleton_Some in Ho as [_ <-].
    exists k. by cbn.
  - intros l o Ho. destruct (decide (l < length h)) as [Hl|Hl]; [eauto|].
    apply lookup_app_Some in Ho as [Ho|[Hge Ho]];
      [apply lookup_lt_Some in Ho; lia|].
    apply list_lookup_singleton_Some in Ho as [Hz <-].
    cbn in *. lia.
  - intros l o Ho. destruct (decide (l < length h)) as [Hl|Hl]; [eauto|].
    assert (this < length h) by by eapply lookup_lt_Some.
    rewrite list_lookup_insert_ne in Ho by lia.
    apply lookup_app_Some in Ho as [Ho|[Hge Ho]];
      [apply lookup_lt_Some in Ho; lia|].
    apply list_lookup_singleton_Some in Ho as [Hz <-].
    exists k. cbn. repeat split; try done; [lia|].
    exists (set_child_field e (Ref (length h))), sk. cbn.
    repeat split; try done.
    apply list_lookup_insert_eq. rewrite length_app. cbn. lia.
Qed.

Lemma reachable_inv (h : heap) : reachable h -> heap_inv h.
Proof.
  induction 1 as [|h c _ IH Hok].
  - intros l o Ho. by rewrite lookup_nil in Ho.
  - eapply effect_inv; [exact IH|exact Hok|]. by apply exec_effect.
Qed.

(** ** [stringify]: enough fuel, and independence of later calls *)

Lemma stringify_fuel_mono (h : heap) n m l s :
  stringify_fuel n h l = Some s -> n <= m -> stringify_fuel m h l = Some s.
Proof.
  revert m l s. induction n as [|n IH]; intros m l s; [done|].
  destruct m as [|m]; [lia|]. intros H Hle. cbn in *.
  destruct (h !! l) as [[e|s1 c s2]|]; [| |done].
  - destruct (parent e) as [p|]; [|done].
    destruct (stringify_fuel n h p) as [par|] eqn:Hp; [|done].
    by rewrite (IH m p par Hp) by lia.
  - destruct (stringify_fuel n h s1) as [a|] eqn:H1; [|done].
    destruct (stringify_fuel n h s2) as [b|] eqn:H2; [|done].
    by rewrite (IH m s1 a H1), (IH m s2 b H2) by lia.
Qed.

Lemma stringify_fuel_extends (h h' : heap) n l s :
  extends h h' ->
  stringify_fuel n h l = Some s -> stringify_fuel n h' l = Some s.
Proof.
  intros Hext. revert l s. induction n as [|n IH]; intros l s; [done|].
  cbn. destruct (h !! l) as [o|] eqn:Ho; [|done].
  destruct (Hext _ _ Ho) as (o' & -> & Hs).
  destruct o as [e|s1 c s2], o' as [e'|s1' c' s2']; cbn in Hs; try done.
  - destruct Hs as [c ->]. cbn.
    destruct (parent e) as [p|]; [|done].
    destruct (stringify_fuel n h p) as [par|] eqn:Hp; [|done].
    by rewrite (IH p par Hp).
  - destruct Hs as (<- & <- & <-).
    destruct (stringify_fuel n h s1) as [a|] eqn:H1; [|done].
    destruct (stringify_fuel n h s2) as [b|] eqn:H2; [|done].
    by rewrite (IH s1 a H1), (IH s2 b H2).
Qed.

Lemma stringify_fuel_total (h : heap) :
  heap_inv h ->
  forall n l, l < n -> l < length h -> is_Some (stringify_fuel n h l).
Proof.
  intros Hinv. induction n as [|n IH]; intros l Hn Hl; [lia|].
  destruct (lookup_lt_is_Some_2 h l Hl) as [o Ho].
  pose proof (Hinv _ _ Ho) as Hobj. cbn. rewrite Ho.
  destruct o as [e|s1 c s2]; cbn in Hobj.
  - destruct Hobj as (k & _ & _ & _ & _ & _ & Hp).
    destruct (parent e) as [p|]; [|by eexists].
    destruct Hp as (Hlt & _).
    destruct (IH p) as [par ->]; [lia..|]. by eexists.
  - destruct Hobj as [Hlt1 Hlt2].
    destruct (IH s1) as [a ->]; [lia..|].
    destruct (IH s2) as [b ->]; [lia..|]. by eexists.
Qed.

Lemma stringify_total (h : heap) l :
  heap_inv h -> l < length h -> is_Some (stringify h l).
Proof. intros. by apply stringify_fuel_total. Qed.

Lemma stringify_fuel_enough (h : heap) n l :
  heap_inv h -> l < length h -> l < n ->
  stringify_fuel n h l = stringify h l.
Proof.
  intros Hinv Hl Hn.
  destruct (stringify_fuel_total h Hinv (S l) l) as [s Hs]; [lia..|].
  unfold stringify.
  rewrite (stringify_fuel_mono h (S l) n l s Hs) by lia.
  by rewrite (stringify_fuel_mono h (S l) (length h) l s Hs) by lia.
Qed.

Lemma stringify_stable (h h' : heap) l :
  heap_inv h -> extends h h' -> l < length h ->
  stringify h' l = stringify h l.
Proof.
  intros Hinv Hext Hl.
  destruct (stringify_total h l Hinv Hl) as [s Hs]. rewrite Hs.
  unfold stringify in *.
  eapply stringify_fuel_mono; [|by apply extends_length].
  by eapply stringify_fuel_extends.
Qed.

(** One unfolding of [stringify], with the fuel out of the way. *)
Lemma stringify_fragment (h : heap) l e :
  heap_inv h -> h !! l = Some (Fragment e) ->
  stringify h l =
    match
      match parent e with
      | Some p => stringify h p
      | None => Some EmptyString
      end
    with
    | Some par => Some (par +:+ sym e +:+ value e +:+ end_ e)
    | None => None
    end.
Proof.
  intros Hinv Ho. pose proof (lookup_lt_Some _ _ _ Ho) as Hl.
  rewrite <- (stringify_fuel_enough h (S l) l) by (done || lia).
  cbn. rewrite Ho.
  destruct (parent e) as [p|] eqn:Hp; [|done].
  destruct (Hinv _ _ Ho) as (k & _ & _ & _ & _ & _ & Hpar).
  rewrite Hp in Hpar. destruct Hpar as [Hlt _].
  by rewrite (stringify_fuel_enough h l p) by (done || lia).
Qed.

Lemma stringify_combined (h : heap) l s1 c s2 :
  heap_inv h -> h !! l = Some (Combined s1 c s2) ->
  stringify h l =
    match stringify h s1, stringify h s2 with
    | Some a, Some b => Some (a +:+ " " +:+ c +:+ " " +:+ b)
    | _, _ => None
    end.
Proof.
  intros Hinv Ho. pose proof (lookup_lt_Some _ _ _ Ho) as Hl.
  rewrite <- (stringify_fuel_enough h (S l) l) by (done || lia).
  cbn. rewrite Ho.
  destruct (Hinv _ _ Ho) as [Hlt1 Hlt2].
  by rewrite !(stringify_fuel_enough h l) by (done || lia).
Qed.

(** ** [chain]: the same for the list of fragments *)

Lemma kind_of_type_name k : kind_of_type (type_name k) = Some k.
Proof. by destruct k. Qed.

Lemma chain_fuel_mono (h : heap) n m l items :
  chain_fuel n h l = Some items -> n <= m -> chain_fuel m h l = Some items.
Proof.
  revert m l items. induction n as [|n IH]; intros m l items; [done|].
  destruct m as [|m]; [lia|]. intros H Hle. cbn in *.
  destruct (h !! l) as [[e|s1 c s2]|]; [|done..].
  destruct (kind_of_type (type e)) as [k|]; [|done].
  destruct (parent e) as [p|]; [|done].
  destruct (chain_fuel n h p) as [par|] eqn:Hp; [|done].
  by rewrite (IH m p par Hp) by lia.
Qed.

Lemma chain_fuel_extends (h h' : heap) n l items :
  extends h h' ->
  chain_fuel n h l = Some items -> chain_fuel n h' l = Some items.
Proof.
  intros Hext. revert l items. induction n as [|n IH]; intros l items; [done|].
  cbn. destruct (h !! l) as [o|] eqn:Ho; [|done].
  destruct (Hext _ _ Ho) as (o' & -> & Hs).
  destruct o as [e|s1 c s2], o' as [e'|s1' c' s2']; cbn in Hs; try done.
  destruct Hs as [c ->]. cbn.
  destruct (kind_of_type (type e)) as [k|]; [|done].
  destruct (parent e) as [p|]; [|done].
  destruct (chain_fuel n h p) as [par|] eqn:Hp; [|done].
  by rewrite (IH p par Hp).
Qed.

Lemma chain_fuel_total (h : heap) :
  heap_inv h ->
  forall n l e, l < n -> h !! l = Some (Fragment e) ->
                is_Some (chain_fuel n h l).
Proof.
  intros Hinv. induction n as [|n IH]; intros l e Hn Ho; [lia|].
  cbn. rewrite Ho.
  destruct (Hinv _ _ Ho) as (k & -> & _ & _ & _ & _ & Hp).
  rewrite kind_of_type_name.
  destruct (parent e) as [p|]; [|by eexists].
  destruct Hp as (Hlt & pe & pk & Hpe & _).
  destruct (IH p pe) as [par ->]; [lia|done|]. by eexists.
Qed.

Lemma chain_fuel_enough (h : heap) n l e :
  heap_inv h -> h !! l = Some (Fragment e) -> l < n ->
  chain_fuel n h l = chain h l.
Proof.
  intros Hinv Ho Hn. pose proof (lookup_lt_Some _ _ _ Ho) as Hl.
  destruct (chain_fuel_total h Hinv (S l) l e) as [s Hs]; [lia|done|].
  unfold chain.
  rewrite (chain_fuel_mono h (S l) n l s Hs) by lia.
  by rewrite (chain_fuel_mono h (S l) (length h) l s Hs) by lia.
Qed.

Lemma chain_stable (h h' : heap) l e :
  heap_inv h -> extends h h' -> h !! l = Some (Fragment e) ->
  chain h' l = chain h l.
Proof.
  intros Hinv Hext Ho. pose proof (lookup_lt_Some _ _ _ Ho) as Hl.
  destruct (chain_fuel_total h Hinv (length h) l e Hl Ho) as [s Hs].
  unfold chain in *. rewrite Hs.
  eapply chain_fuel_mono; [|by apply extends_length].
  by eapply chain_fuel_extends.
Qed.

Lemma chain_fragment (h : heap) l e k :
  heap_inv h -> h !! l = Some (Fragment e) -> type e = type_name k ->
  chain h l =
    match
      match parent e with
      | Some p => chain h p
      | None => Some []
      end
    with
    | Some items => Some (items ++ [(k, value e)])
    | None => None
    end.
Proof.
  intros Hinv Ho Ht. pose proof (lookup_lt_Some _ _ _ Ho) as Hl.
  rewrite <- (chain_fuel_enough h (S l) l e) by (done || lia).
  cbn. rewrite Ho, Ht, kind_of_type_name.
  destruct (parent e) as [p|] eqn:Hp; [|done].
  destruct (Hinv _ _ Ho) as (k' & _ & _ & _ & _ & _ & Hpar).
  rewrite Hp in Hpar. destruct Hpar as (Hlt & pe & pk & Hpe & _).
  by rewrite (chain_fuel_enough h l p pe) by (done || lia).
Qed.

(** ** Programs *)

Lemma call_okb_ok (h : heap) c : call_okb h c = true -> call_ok h c.
Proof.
  destruct c; cbn; [done| |].
  - by intros ?%Nat.ltb_lt.
  - intros [?%Nat.ltb_lt ?%Nat.ltb_lt]%andb_prop. done.
Qed.

Lemma run_later cs (h h' : heap) : run cs h = Some h' -> later h h'.
Proof.
  assert (forall h0, later h0 h -> run cs h = Some h' -> later h0 h') as Hgen.
  { clear. revert h. induction cs as [|c cs IH]; intros h h0 Hl; cbn.
    - by intros [= <-].
    - destruct (call_okb h c) eqn:Hok; [|done].
      apply IH. constructor; [done|]. by apply call_okb_ok. }
  apply Hgen. constructor.
Qed.

Lemma later_reachable (h h' : heap) : reachable h -> later h h' -> reachable h'.
Proof. intros Hr. induction 1; [done|]. by constructor. Qed.

Lemma run_reachable cs (h : heap) : run cs [] = Some h -> reachable h.
Proof.
  intros H. eapply later_reachable; [constructor|]. by eapply run_later.
Qed.

Lemma later_extends (h h' : heap) :
  heap_inv h -> later h h' -> heap_inv h' /\ extends h h'.
Proof.
  intros Hinv. induction 1 as [|h' c _ [IHinv IHext] Hok].
  - split; [done|apply extends_refl].
  - pose proof (exec_effect h' c IHinv) as Heff. split.
    + by eapply effect_inv.
    + eapply extends_trans; [done|]. by eapply effect_extends.
Qed.

(** ** Strings and lists of kinds *)

Lemma append_nil_r s : s +:+ EmptyString = s.
Proof.
  induction s as [|a s IH]; [done|].
  change (String a (s +:+ EmptyString) = String a s). by rewrite IH.
Qed.

Lemma append_assoc s1 s2 s3 : (s1 +:+ s2) +:+ s3 = s1 +:+ s2 +:+ s3.
Proof.
  induction s1 as [|a s1 IH]; [done|].
  change (String a ((s1 +:+ s2) +:+ s3) = String a (s1 +:+ s2 +:+ s3)).
  by rewrite IH.
Qed.

Lemma concat_strings_snoc l s :
  concat_strings (l ++ [s]) = concat_strings l +:+ s.
Proof.
  induction l as [|x l IH].
  - change (s +:+ EmptyString = s). apply append_nil_r.
  - change (x +:+ concat_strings (l ++ [s]) = (x +:+ concat_strings l) +:+ s).
    by rewrite IH, append_assoc.
Qed.

Lemma ordered_snoc ks k :
  ordered ks = true -> Forall (fun x => rank x <= rank k) ks ->
  ordered (ks ++ [k]) = true.
Proof.
  induction ks as [|a [|b ks] IH]; intros Hord Hall; [done|..].
  - cbn. apply Forall_cons in Hall as [Ha _].
    rewrite andb_true_r. by apply Nat.leb_le.
  - apply Forall_cons in Hall as [_ Hall].
    cbn in Hord. apply andb_prop in Hord as [Hab Hord].
    change (((rank a <=? rank b) && ordered ((b :: ks) ++ [k])) = true).
    rewrite Hab. by apply IH.
Qed.

Lemma occurrences_snoc k ks x :
  occurrences k (ks ++ [x]) =
  occurrences k ks + (if decide (x = k) then 1 else 0).
Proof.
  unfold occurrences. rewrite filter_app, length_app. f_equal.
  cbn. unfold filter. cbn. by destruct (decide (x = k)).
Qed.

Lemma occurrences_below k ks :
  Forall (fun x => rank x < rank k) ks -> occurrences k ks = 0.
Proof.
  unfold occurrences. induction 1 as [|x ks Hx _ IH]; [done|].
  rewrite filter_cons. destruct (decide (x = k)) as [->|]; [lia|done].
Qed.

Lemma rank_inj k1 k2 : rank k1 = rank k2 -> k1 = k2.
Proof. by destruct k1, k2. Qed.

Lemma ordering_rule_append sk k :
  ordering_rule sk k = Append ->
  rank sk <= rank k /\ (non_repeatable k = true -> rank sk < rank k).
Proof.
  destruct sk, k; cbn; intros H; try discriminate H;
    (split; [lia|intros H'; try discriminate H'; lia]).
Qed.

Lemma type_name_inj k1 k2 : type_name k1 = type_name k2 -> k1 = k2.
Proof. by destruct k1, k2. Qed.

Lemma good_chain_single k : good_chain [k] k.
Proof.
  split; [done|]. split; [by repeat constructor|].
  intros k' _. unfold occurrences. rewrite filter_cons.
  destruct (decide (k = k')); cbn; lia.
Qed.

Lemma good_chain_snoc ks kp k :
  good_chain ks kp -> ordering_rule kp k = Append ->
  good_chain (ks ++ [k]) k.
Proof.
  intros (Hord & Hall & Hocc) [Hle Hlt]%ordering_rule_append.
  assert (Forall (fun x => rank x <= rank k) ks) as Hall'.
  { eapply Forall_impl; [exact Hall|]. cbn. lia. }
  split; [by apply ordered_snoc|]. split.
  - apply Forall_app. split; [done|]. by repeat constructor.
  - intros k' Hk'. rewrite occurrences_snoc.
    destruct (decide (k = k')) as [<-|]; [|specialize (Hocc k' Hk'); lia].
    rewrite occurrences_below; [lia|].
    eapply Forall_impl; [exact Hall|]. cbn. specialize (Hlt Hk'). lia.
Qed.

(** The chain that ends in a fragment, its rendering and its invariants. *)
Lemma chain_summary (h : heap) :
  heap_inv h ->
  forall l e k, h !! l = Some (Fragment e) -> type e = type_name k ->
    exists items,
      chain h l = Some (items ++ [(k, value e)]) /\
      stringify h l =
        Some (concat_strings (map rendering (items ++ [(k, value e)]))) /\
      good_chain (map fst (items ++ [(k, value e)])) k.
Proof.
  intros Hinv l. induction l as [l IH] using lt_wf_ind.
  intros e k Ho Ht.
  rewrite (chain_fragment h l e k Hinv Ho Ht), (stringify_fragment h l e Hinv Ho).
  destruct (Hinv _ _ Ho) as (k0 & Ht0 & Hsym & Hend & _ & _ & Hpar).
  assert (k0 = k) as -> by (apply type_name_inj; congruence).
  rewrite Hsym, Hend.
  destruct (parent e) as [p|].
  - destruct Hpar as (Hlt & pe & pk & Hpe & Htp & Hrule).
    destruct (IH p Hlt pe pk Hpe Htp) as (items & -> & -> & Hgood).
    exists (items ++ [(pk, value pe)]). split; [done|]. split.
    + rewrite (map_app rendering (items ++ [(pk, value pe)]) [(k, value e)]).
      change (map rendering [(k, value e)]) with [rendering (k, value e)].
      by rewrite concat_strings_snoc.
    + rewrite (map_app fst (items ++ [(pk, value pe)]) [(k, value e)]).
      by eapply good_chain_snoc.
  - exists []. split; [done|]. split.
    + change (Some (rendering (k, value e)) =
              Some (rendering (k, value e) +:+ EmptyString)).
      by rewrite append_nil_r.
    + apply good_chain_single.
Qed.

(** A chaining call that returns extends the chain of the fragment it was
    made on by one item: the kind and the value of the call. *)
Lemma chain_after_chaining (h : heap) f e k v r h' :
  heap_inv h -> h !! f = Some (Fragment e) ->
  exec (method_call f k v) h = (Return r, h') ->
  exists items,
    chain h f = Some items /\ r = Obj (length h) /\
    chain h' (length h) = Some (items ++ [(k, v)]).
Proof.
  intros Hinv Ho Hex.
  pose proof (lookup_lt_Some _ _ _ Ho) as Hf.
  pose proof (exec_effect h (method_call f k v) Hinv) as Heff.
  rewrite Hex in Heff. cbn [fst snd] in Heff.
  assert (heap_inv h') as Hinv'.
  { by apply (effect_inv h (method_call f k v) (Return r) h' Hinv Hf). }
  pose proof (effect_extends _ _ _ _ Heff) as Hext.
  destruct (chain_fuel_total h Hinv (length h) f e Hf Ho) as [items Hc].
  change (chain h f = Some items) in Hc.
  exists items. split; [done|].
  inversion Heff as [| | | | |this e0 sk k0 v0 Ho0 Ht Hrule]; subst.
  split; [done|].
  set (h' := <[f:=_]> _) in *.
  assert (h' !! length h = Some (Fragment (new_fragment k v (Some f)))) as Hnew.
  { unfold h'. rewrite list_lookup_insert_ne by lia.
    by rewrite lookup_app_r, Nat.sub_diag by lia. }
  rewrite (chain_fragment h' _ _ k Hinv' Hnew eq_refl). cbn [parent new_fragment].
  by rewrite (chain_stable h h' f e Hinv Hext Ho), Hc.
Qed.

(** Class, attribute and pseudo-class can occur twice in a chain. *)
Lemma repeatable_kinds_repeat k :
  non_repeatable k = false ->
  exists h, reachable h /\ chain h 1 = Some [(k, "a"); (k, "b")].
Proof.
  intros Hk.
  exists (default [] (run [builder_call k "a"; method_call 0 k "b"] [])).
  split.
  - apply (run_reachable [builder_call k "a"; method_call 0 k "b"]).
    by destruct k.
  - by destruct k.
Qed.

Lemma sample_reachable : reachable sample_store.
Proof. by apply (run_reachable sample_program). Qed.

(** * The claims *)

(** C1. A chaining call of kind [newKind] with payload [value] on a fragment
    [self] throws the duplicate-kind message when [newKind] is one of
    element, id, pseudo-element and [self] has that kind; otherwise it throws
    the ordering message when the rank of [self]'s kind is strictly greater
    than that of [newKind]; otherwise it returns a new fragment of kind
    [newKind] that holds [value] and whose predecessor is [self]. *)
Theorem chaining_call_rule (h : heap) self e newKind value0 :
  reachable h -> h !! self = Some (Fragment e) ->
  exists selfKind, type e = type_name selfKind /\
    if non_repeatable newKind && bool_decide (selfKind = newKind) then
      exec (method_call self newKind value0) h =
        (Throw (Error "Element, id and pseudo-element should not occur more then one time inside the selector"), h)
    else if rank newKind <? rank selfKind then
      exec (method_call self newKind value0) h =
        (Throw (Error "Selector parts should be arranged in the following order: element, id, class, attribute, pseudo-class, pseudo-element"), h)
    else
      exists new h' g,
        exec (method_call self newKind value0) h = (Return (Obj new), h') /\
        h !! new = None /\
        h' !! new = Some (Fragment g) /\
        type g = type_name newKind /\ value g = value0 /\
        parent g = Some self.
Proof.
  intros Hinv%reachable_inv Hself.
  destruct (Hinv _ _ Hself) as (sk & Ht & _ & _ & Hv & Hp & _).
  exists sk. split; [done|].
  cbn [exec]. rewrite (method_spec h self e sk newKind value0 Hself Ht).
  unfold ordering_rule.
  destruct (non_repeatable newKind && bool_decide (sk = newKind));
    [by rewrite Hv|].
  destruct (rank newKind <? rank sk); [by rewrite Hp|].
  eexists (length h), _, (new_fragment newKind value0 (Some self)).
  split; [done|]. split; [by apply lookup_ge_None_2|]. split; [|done].
  assert (self < length h) by by eapply lookup_lt_Some.
  rewrite list_lookup_insert_ne by lia.
  by rewrite lookup_app_r, Nat.sub_diag by lia.
Qed.

Lemma chaining_call_rule_witness :
  reachable sample_store /\
  exists selfKind,
    type (set_child_field (new_fragment KId "main" (Some 0)) (Ref 2))
      = type_name selfKind /\
    if non_repeatable KElement && bool_decide (selfKind = KElement) then
      exec (method_call 1 KElement "span") sample_store =
        (Throw (Error "Element, id and pseudo-element should not occur more then one time inside the selector"), sample_store)
    else if rank KElement <? rank selfKind then
      exec (method_call 1 KElement "span") sample_store =
        (Throw (Error "Selector parts should be arranged in the following order: element, id, class, attribute, pseudo-class, pseudo-element"), sample_store)
    else
      exists new h' g,
        exec (method_call 1 KElement "span") sample_store
          = (Return (Obj new), h') /\
        sample_store !! new = None /\
        h' !! new = Some (Fragment g) /\
        type g = type_name KElement /\ value g = "span" /\
        parent g = Some 1.
Proof.
  split; [exact sample_reachable|].
  apply (chaining_call_rule sample_store 1 _ KElement "span");
    [exact sample_reachable|reflexivity].
Defined.

(** C2. In a store built with the public surface, [stringify()] of a
    fragment is the concatenation, first fragment to last and without
    separators, of each fragment's prefix, stored value and (for an
    attribute) closing bracket; the prefixes are those of [prefix]. *)
Theorem stringify_is_concatenation (h : heap) l e :
  reachable h -> h !! l = Some (Fragment e) ->
  exists items,
    chain h l = Some items /\
    stringify h l = Some (concat_strings (map rendering items)).
Proof.
  intros Hinv%reachable_inv Ho.
  destruct (Hinv _ _ Ho) as (k & Ht & _).
  destruct (chain_summary h Hinv l e k Ho Ht) as (items & Hc & Hs & _).
  eauto.
Qed.

Lemma stringify_is_concatenation_witness :
  reachable sample_store /\
  exists items,
    chain sample_store 3 = Some items /\
    stringify sample_store 3 = Some (concat_strings (map rendering items)).
Proof.
  split; [exact sample_reachable|].
  apply (stringify_is_concatenation sample_store 3
           (new_fragment KClass "draggable" (Some 2)));
    [exact sample_reachable|reflexivity].
Defined.

(** C5. Along the chain of every fragment of a store built with the public
    surface the kinds are in non-decreasing order rank, and each of element,
    id, pseudo-element occurs at most once. *)
Theorem chain_invariants (h : heap) l e :
  reachable h -> h !! l = Some (Fragment e) ->
  exists items,
    chain h l = Some items /\
    ordered (map fst items) = true /\
    forall k, k = KElement \/ k = KId \/ k = KPseudoElement ->
              occurrences k (map fst items) <= 1.
Proof.
  intros Hinv%reachable_inv Ho.
  destruct (Hinv _ _ Ho) as (k & Ht & _).
  destruct (chain_summary h Hinv l e k Ho Ht)
    as (items & Hc & _ & Hord & _ & Hocc).
  eexists. split; [done|]. split; [done|].
  intros k' [->|[->| ->]]; by apply Hocc.
Qed.

Lemma chain_invariants_witness :
  reachable sample_store /\
  exists items,
    chain sample_store 3 = Some items /\
    ordered (map fst items) = true /\
    forall k, k = KElement \/ k = KId \/ k = KPseudoElement ->
              occurrences k (map fst items) <= 1.
Proof.
  split; [exact sample_reachable|].
  apply (chain_invariants sample_store 3
           (new_fragment KClass "draggable" (Some 2)));
    [exact sample_reachable|reflexivity].
Defined.

Lemma chain_is_fragment (h : heap) l items :
  chain h l = Some items -> exists e, h !! l = Some (Fragment e).
Proof.
  unfold chain. destruct (length h) as [|n]; [done|]. cbn.
  destruct (h !! l) as [[e|]|]; [|done..]. eauto.
Qed.

(** C3, as the source has it.  [element()] looks at the fragment it is called
    on and at nothing else: it throws the duplicate-kind message when that
    fragment, the last of its chain, is an element, and the ordering message
    when it is of any other kind, whatever the chain holds before it. *)
Theorem element_call_checks_last_kind (h : heap) l items k v0 v :
  reachable h -> chain h l = Some (items ++ [(k, v0)]) ->
  exec (method_call l KElement v) h =
    (Throw (Error (if bool_decide (k = KElement)
                   then MyElementClass.validError_message
                   else MyElementClass.partsError_message)), h).
Proof.
  intros Hinv%reachable_inv Hc.
  destruct (chain_is_fragment h l _ Hc) as [e Ho].
  destruct (Hinv _ _ Ho) as (k' & Ht & _ & _ & Hv & Hp & _).
  destruct (chain_summary h Hinv l e k' Ho Ht) as (items' & Hc' & _).
  rewrite Hc in Hc'. injection Hc' as Heq.
  apply app_inj_tail in Heq as [_ [= -> _]].
  cbn [exec]. rewrite (method_spec h l e k' KElement v Ho Ht), Hv, Hp.
  by destruct k'.
Qed.

Lemma element_call_checks_last_kind_witness :
  reachable sample_store /\
  chain sample_store 1 = Some ([(KElement, "div")] ++ [(KId, "main")]) /\
  exec (method_call 1 KElement "span") sample_store =
    (Throw (Error (if bool_decide (KId = KElement)
                   then MyElementClass.validError_message
                   else MyElementClass.partsError_message)), sample_store).
Proof.
  split; [exact sample_reachable|]. split; [reflexivity|].
  apply (element_call_checks_last_kind sample_store 1
           [(KElement, "div")] KId "main" "span");
    [exact sample_reachable|reflexivity].
Defined.

(** C3 as the claim states it fails: after [element('div').id('main')] the
    chain holds an element fragment, and [.element('span')] on its id
    fragment throws the ordering message, not the duplicate-kind one. *)
Lemma element_call_counterexample :
  reachable sample_store /\
  chain sample_store 1 = Some [(KElement, "div"); (KId, "main")] /\
  (exec (method_call 1 KElement "span") sample_store).1 =
    Throw (Error "Selector parts should be arranged in the following order: element, id, class, attribute, pseudo-class, pseudo-element") /\
  (exec (method_call 1 KElement "span") sample_store).1 <>
    Throw (Error "Element, id and pseudo-element should not occur more then one time inside the selector").
Proof.
  split; [exact sample_reachable|]. split; [reflexivity|].
  split; [reflexivity|]. vm_compute. discriminate.
Qed.

(** C7 as the claim states it fails: [element('div')] constructs a fragment
    whose [child] is the empty object; the chaining call [.id('main')] on it
    then stores a reference to the new fragment in that field. *)
Lemma chaining_call_mutates_counterexample :
  let h := (exec (builder_call KElement "div") []).2 in
  let h' := (exec (method_call 0 KId "main") h).2 in
  h !! 0 = Some (Fragment (new_fragment KElement "div" None)) /\
  h' !! 0 =
    Some (Fragment (set_child_field (new_fragment KElement "div" None) (Ref 1)))
  /\ h' !! 0 <> h !! 0.
Proof. cbn. split; [done|]. split; [done|]. discriminate. Qed.

(** C8. The two renderings of the specification. *)
Theorem concrete_renderings :
  eval_stringify
    (let! a := cssSelectorBuilder.element "div" in
     let! b := MyElementClass.id a "main" in
     let! c := MyElementClass.class b "container" in
     MyElementClass.class c "draggable") []
  = Some "div#main.container.draggable" /\
  eval_stringify
    (let! a := cssSelectorBuilder.element "a" in
     let! b := MyElementClass.attr a ("href$=" +:+ dq +:+ ".png" +:+ dq) in
     MyElementClass.pseudoClass b "focus") []
  = Some ("a[href$=" +:+ dq +:+ ".png" +:+ dq +:+ "]:focus").
Proof. split; vm_compute; reflexivity. Qed.

(** C9. A chaining call on [f] that returns yields a fragment that was not
    in the store, overwrites the [child] field of [f], and leaves
    [f.stringify()] as it was; the new fragment renders as [f] followed by
    its own prefix, value and closing.  Whatever calls follow, on [f] or on
    any other object, the renderings of [f] and of the new fragment
    stay what they are. *)
Theorem chaining_keeps_renderings (h : heap) f e k v r h' :
  reachable h -> h !! f = Some (Fragment e) ->
  exec (method_call f k v) h = (Return r, h') ->
  exists new s,
    r = Obj new /\ h !! new = None /\
    h' !! f = Some (Fragment (set_child_field e (Ref new))) /\
    stringify h f = Some s /\
    stringify h' f = Some s /\
    stringify h' new = Some (s +:+ rendering (k, v)) /\
    forall h'', later h' h'' ->
      stringify h'' f = Some s /\
      stringify h'' new = Some (s +:+ rendering (k, v)).
Proof.
  intros Hreach Ho Hex.
  pose proof (reachable_inv h Hreach) as Hinv.
  pose proof (lookup_lt_Some _ _ _ Ho) as Hf.
  assert (reachable h') as Hreach'.
  { replace h' with (exec (method_call f k v) h).2 by by rewrite Hex.
    by constructor. }
  pose proof (reachable_inv h' Hreach') as Hinv'.
  assert (extends h h') as Hext.
  { replace h' with (exec (method_call f k v) h).2 by by rewrite Hex.
    eapply effect_extends. by apply exec_effect. }
  destruct (Hinv _ _ Ho) as (sk & Ht & _).
  cbn [exec] in Hex. rewrite (method_spec h f e sk k v Ho Ht) in Hex.
  destruct (ordering_rule sk k); simplify_eq.
  set (h' := <[f:=_]> _) in *.
  assert (h' !! length h = Some (Fragment (new_fragment k v (Some f)))) as Hnew.
  { unfold h'. rewrite list_lookup_insert_ne by lia.
    by rewrite lookup_app_r, Nat.sub_diag by lia. }
  assert (h' !! f = Some (Fragment (set_child_field e (Ref (length h)))))
    as Hf'.
  { unfold h'. apply list_lookup_insert_eq. rewrite length_app. cbn. lia. }
  destruct (stringify_total h f Hinv Hf) as [s Hs].
  assert (stringify h' f = Some s) as Hs'.
  { by rewrite (stringify_stable h h' f Hinv Hext Hf). }
  assert (stringify h' (length h) = Some (s +:+ rendering (k, v))) as Hsnew.
  { rewrite (stringify_fragment h' _ _ Hinv' Hnew). cbn [parent new_fragment].
    rewrite Hs'. done. }
  exists (length h), s.
  split; [done|]. split; [by apply lookup_ge_None_2|].
  do 4 (split; [done|]).
  intros h'' [_ Hext'']%(later_extends h' h'' Hinv').
  rewrite !(stringify_stable h' h'') by (done || by eapply lookup_lt_Some).
  done.
Qed.

Lemma chaining_keeps_renderings_witness :
  reachable sample_store /\
  exists new s,
    Obj 6 = Obj new /\ sample_store !! new = None /\
    (exec (method_call 3 KAttribute "href") sample_store).2 !! 3 =
      Some (Fragment
              (set_child_field (new_fragment KClass "draggable" (Some 2))
                 (Ref new))) /\
    stringify sample_store 3 = Some s /\
    stringify (exec (method_call 3 KAttribute "href") sample_store).2 3
      = Some s /\
    stringify (exec (method_call 3 KAttribute "href") sample_store).2 new
      = Some (s +:+ rendering (KAttribute, "href")) /\
    forall h'',
      later (exec (method_call 3 KAttribute "href") sample_store).2 h'' ->
      stringify h'' 3 = Some s /\
      stringify h'' new = Some (s +:+ rendering (KAttribute, "href")).
Proof.
  split; [exact sample_reachable|].
  apply (chaining_keeps_renderings sample_store 3
           (new_fragment KClass "draggable" (Some 2)) KAttribute "href"
           (Obj 6) (exec (method_call 3 KAttribute "href") sample_store).2);
    [exact sample_reachable|reflexivity|reflexivity].
Defined.

Lemma never_append_element sk : ordering_rule sk KElement <> Append.
Proof. by destruct sk. Qed.

Lemma chain_element_first (h : heap) :
  heap_inv h ->
  forall l items i v,
    chain h l = Some items -> items !! i = Some (KElement, v) -> i = 0.
Proof.
  intros Hinv l. induction l as [l IH] using lt_wf_ind.
  intros items i v Hc Hi.
  destruct (chain_is_fragment h l _ Hc) as [e Ho].
  destruct (Hinv _ _ Ho) as (k & Ht & _ & _ & _ & _ & Hpar).
  rewrite (chain_fragment h l e k Hinv Ho Ht) in Hc.
  destruct (parent e) as [p|].
  - destruct Hpar as (Hlt & pe & pk & Hpe & Htp & Hrule).
    destruct (chain h p) as [pitems|] eqn:Hcp; [|done].
    injection Hc as <-.
    apply lookup_app_Some in Hi as [Hi|[_ Hi]]; [by eapply (IH p)|].
    apply list_lookup_singleton_Some in Hi as [_ [= -> _]].
    by apply never_append_element in Hrule.
  - injection Hc as <-. cbn in Hi.
    by apply list_lookup_singleton_Some in Hi as [? _].
Qed.

(** C10. The method [element] throws on every fragment, whatever argument
    the call passes: the duplicate-kind message on an element fragment, the
    ordering message on a fragment of any other kind.  So an element fragment
    has no predecessor, and in every chain only the first fragment can be an
    element. *)
Theorem element_method_always_throws (h : heap) f e :
  reachable h -> h !! f = Some (Fragment e) ->
  (forall v,
     exec (method_call f KElement v) h =
       (Throw (Error (if type e === "elem"
                      then "Element, id and pseudo-element should not occur more then one time inside the selector"
                      else "Selector parts should be arranged in the following order: element, id, class, attribute, pseudo-class, pseudo-element")),
        h)) /\
  (type e = "elem" -> parent e = None) /\
  (forall items i v,
     chain h f = Some items -> items !! i = Some (KElement, v) -> i = 0).
Proof.
  intros Hinv%reachable_inv Ho.
  destruct (Hinv _ _ Ho) as (sk & Ht & _ & _ & Hv & Hp & Hpar).
  split; [|split].
  - intros v. cbn [exec].
    rewrite (method_spec h f e sk KElement v Ho Ht), Hv, Hp, Ht.
    by destruct sk.
  - intros Helem. destruct (parent e) as [p|]; [|done].
    destruct Hpar as (_ & pe & pk & _ & _ & Hrule).
    assert (sk = KElement) as ->.
    { apply type_name_inj. by rewrite <- Ht. }
    by apply never_append_element in Hrule.
  - intros items i v. by apply chain_element_first.
Qed.

Lemma element_method_always_throws_witness :
  reachable sample_store /\
  forall v,
    exec (method_call 0 KElement v) sample_store =
      (Throw (Error "Element, id and pseudo-element should not occur more then one time inside the selector"),
       sample_store).
Proof.
  split; [exact sample_reachable|].
  exact (proj1 (element_method_always_throws sample_store 0
                  (set_child_field (new_fragment KElement "div" None) (Ref 1))
                  sample_reachable eq_refl)).
Defined.

(** * Further properties of the builder *)

Lemma later_trans (h1 h2 h3 : heap) : later h1 h2 -> later h2 h3 -> later h1 h3.
Proof. intros H12. induction 1; [done|]. by constructor. Qed.

Lemma later_one (h : heap) c : call_ok h c -> later h (exec c h).2.
Proof. intros. constructor; [constructor|done]. Qed.

Lemma stringify_of_chain (h : heap) l items :
  heap_inv h -> chain h l = Some items ->
  stringify h l = Some (concat_strings (map rendering items)).
Proof.
  intros Hinv Hc. destruct (chain_is_fragment h l _ Hc) as [e Ho].
  destruct (Hinv _ _ Ho) as (k & Ht & _).
  destruct (chain_summary h Hinv l e k Ho Ht) as (items' & Hc' & Hs & _).
  rewrite Hc in Hc'. by injection Hc' as ->.
Qed.

Lemma start_effect (h : heap) k v :
  heap_inv h ->
  let h' := h ++ [Fragment (new_fragment k v None)] in
  start k v h = (Return (length h), h') /\
  later h h' /\ heap_inv h' /\
  h' !! length h = Some (Fragment (new_fragment k v None)) /\
  chain h' (length h) = Some [(k, v)].
Proof.
  intros Hinv h'. split; [apply start_spec|].
  pose proof (later_one h (builder_call k v) I) as Hl.
  assert ((exec (builder_call k v) h).2 = h') as Heq.
  { cbn. unfold fmap_M, bind. by rewrite start_spec. }
  rewrite Heq in Hl. split; [done|].
  destruct (later_extends h h' Hinv Hl) as [Hinv' _]. split; [done|].
  assert (h' !! length h = Some (Fragment (new_fragment k v None))) as Hnew.
  { unfold h'. by rewrite lookup_app_r, Nat.sub_diag by lia. }
  split; [done|].
  by rewrite (chain_fragment h' _ _ k Hinv' Hnew eq_refl).
Qed.

(** X1. Each of the six start operations of the facade returns, for every
    value, a new fragment without predecessor whose rendering is its prefix,
    the value as given and its closing; the objects of the store stay as
    they are. *)
Theorem start_renders (h : heap) k v :
  reachable h ->
  exists l h',
    start k v h = (Return l, h') /\
    h !! l = None /\
    (forall l' o, h !! l' = Some o -> h' !! l' = Some o) /\
    (exists e, h' !! l = Some (Fragment e) /\ parent e = None /\
               child e = EmptyObject /\ value e = v) /\
    stringify h' l = Some (prefix k +:+ v +:+ closing k).
Proof.
  intros Hinv%reachable_inv.
  destruct (start_effect h k v Hinv) as (Hs & _ & Hinv' & Hnew & Hc).
  eexists _, _. split; [exact Hs|]. split; [by apply lookup_ge_None_2|].
  split; [intros l' o; apply lookup_snoc_old|]. split; [by eexists|].
  rewrite (stringify_of_chain _ _ _ Hinv' Hc).
  change (Some (rendering (k, v) +:+ EmptyString) = Some (rendering (k, v))).
  by rewrite append_nil_r.
Qed.

Lemma start_renders_witness :
  reachable sample_store /\
  exists l h',
    start KAttribute "href" sample_store = (Return l, h') /\
    sample_store !! l = None /\
    (forall l' o, sample_store !! l' = Some o -> h' !! l' = Some o) /\
    (exists e, h' !! l = Some (Fragment e) /\ parent e = None /\
               child e = EmptyObject /\ value e = "href") /\
    stringify h' l = Some (prefix KAttribute +:+ "href" +:+ closing KAttribute).
Proof.
  split; [exact sample_reachable|].
  exact (start_renders sample_store KAttribute "href" sample_reachable).
Defined.

Lemma never_append_after_pseudo_element k :
  ordering_rule KPseudoElement k <> Append.
Proof. by destruct k. Qed.

Lemma effect_child_inv (h : heap) c r h' :
  child_inv h -> effect h c r h' -> child_inv h'.
Proof.
  intros Hch Heff. pose proof (effect_extends _ _ _ _ Heff) as Hext.
  assert (Hold : forall f e c0, h !! f = Some (Fragment e) ->
            child e = Ref c0 ->
            f < c0 /\ exists ce, h' !! c0 = Some (Fragment ce) /\
                                 parent ce = Some f).
  { intros f e c0 Hf Hc. destruct (Hch f e c0 Hf Hc) as (Hlt & ce & Hce & Hp).
    split; [done|].
    destruct (Hext _ _ Hce) as ([ce'|] & Hce' & Hs); cbn in Hs; [|done].
    destruct Hs as [x ->]. by eexists. }
  destruct Heff; try done.
  - intros f e c0 Hf Hc.
    apply lookup_app_Some in Hf as [Hf|[_ Hf]]; [by eapply Hold|].
    by apply list_lookup_singleton_Some in Hf as [_ [= <-]].
  - intros f e c0 Hf Hc.
    apply lookup_app_Some in Hf as [Hf|[_ Hf]]; [by eapply Hold|].
    by apply list_lookup_singleton_Some in Hf as [_ ?].
  - intros f e' c0 Hf Hc.
    assert (this < length h) by by eapply lookup_lt_Some.
    destruct (decide (f = this)) as [->|Hne].
    + rewrite list_lookup_insert_eq in Hf by (rewrite length_app; cbn; lia).
      injection Hf as <-. cbn in Hc. injection Hc as <-.
      split; [done|]. exists (new_fragment k v (Some this)). split; [|done].
      rewrite list_lookup_insert_ne by lia.
      by rewrite lookup_app_r, Nat.sub_diag by lia.
    + rewrite list_lookup_insert_ne in Hf by done.
      apply lookup_app_Some in Hf as [Hf|[_ Hf]]; [by eapply Hold|].
      by apply list_lookup_singleton_Some in Hf as [_ [= <-]].
Qed.

Lemma reachable_child_inv (h : heap) : reachable h -> child_inv h.
Proof.
  induction 1 as [|h c Hr IH Hok].
  - intros f e c Hf. by rewrite lookup_nil in Hf.
  - eapply effect_child_inv; [exact IH|].
    apply exec_effect. by apply reachable_inv.
Qed.

(** X4. In every store built with the public surface, the [child] field of a
    fragment is either the empty object it was constructed with or a
    reference to a fragment that was constructed later and whose [parent] is
    that very fragment. *)
Theorem child_link_invariant (h : heap) f e :
  reachable h -> h !! f = Some (Fragment e) ->
  child e = EmptyObject \/
  exists c ce, child e = Ref c /\ f < c /\
               h !! c = Some (Fragment ce) /\ parent ce = Some f.
Proof.
  intros Hch%reachable_child_inv Hf.
  destruct (child e) as [|c] eqn:Hc; [by left|right].
  destruct (Hch f e c Hf Hc) as (Hlt & ce & Hce & Hp). by exists c, ce.
Qed.

Lemma child_link_invariant_witness :
  reachable sample_store /\
  (child (set_child_field (new_fragment KId "main" (Some 0)) (Ref 2))
     = EmptyObject \/
   exists c ce,
     child (set_child_field (new_fragment KId "main" (Some 0)) (Ref 2))
       = Ref c /\ 1 < c /\
     sample_store !! c = Some (Fragment ce) /\ parent ce = Some 1).
Proof.
  split; [exact sample_reachable|].
  apply (child_link_invariant sample_store 1 _ sample_reachable eq_refl).
Defined.

Lemma chain_pseudo_element_last (h : heap) :
  heap_inv h ->
  forall l items i v,
    chain h l = Some items -> items !! i = Some (KPseudoElement, v) ->
    S i = length items.
Proof.
  intros Hinv l. induction l as [l IH] using lt_wf_ind.
  intros items i v Hc Hi.
  destruct (chain_is_fragment h l _ Hc) as [e Ho].
  destruct (Hinv _ _ Ho) as (k & Ht & _ & _ & _ & _ & Hpar).
  rewrite (chain_fragment h l e k Hinv Ho Ht) in Hc.
  destruct (parent e) as [p|].
  - destruct Hpar as (Hlt & pe & pk & Hpe & Htp & Hrule).
    destruct (chain_summary h Hinv p pe pk Hpe Htp) as (pre & Hcp & _).
    rewrite Hcp in Hc. injection Hc as <-.
    rewrite !length_app. cbn.
    apply lookup_app_Some in Hi as [Hi|[Hge Hi]]; [|].
    + pose proof (IH p Hlt _ i v Hcp Hi) as Hlast.
      rewrite length_app in Hlast. cbn in Hlast.
      assert (i = length pre) as -> by lia.
      rewrite lookup_app_r, Nat.sub_diag in Hi by lia.
      injection Hi as -> _.
      by apply never_append_after_pseudo_element in Hrule.
    + apply list_lookup_singleton_Some in Hi as [Hz _].
      rewrite length_app in Hz, Hge. cbn in Hz, Hge. lia.
  - injection Hc as <-. cbn in *.
    by apply list_lookup_singleton_Some in Hi as [-> _].
Qed.

(** X3. A pseudo-element fragment ends its chain.  Every chaining call on it
    throws (the duplicate-kind message for [pseudoElement], the ordering
    message for the five others) and leaves the store as it was; its [child]
    field stays the empty object; no fragment has it as predecessor; and in
    the chain of any fragment a pseudo-element can only be the last item. *)
Theorem pseudo_element_is_terminal (h : heap) f e :
  reachable h -> h !! f = Some (Fragment e) -> type e = "pseudoElement" ->
  (forall k v,
     exec (method_call f k v) h =
       (Throw (Error (if bool_decide (k = KPseudoElement)
                      then MyElementClass.validError_message
                      else MyElementClass.partsError_message)), h)) /\
  child e = EmptyObject /\
  (forall l e', h !! l = Some (Fragment e') -> parent e' <> Some f) /\
  (forall l items i v,
     chain h l = Some items -> items !! i = Some (KPseudoElement, v) ->
     S i = length items).
Proof.
  intros Hreach Ho Hty. pose proof (reachable_inv h Hreach) as Hinv.
  destruct (Hinv _ _ Ho) as (sk & Ht & _ & _ & Hv & Hp & _).
  assert (sk = KPseudoElement) as ->.
  { apply type_name_inj. by rewrite <- Ht. }
  assert (Hnopar : forall l e', h !! l = Some (Fragment e') ->
                                parent e' <> Some f).
  { intros l e' Hl Hpar.
    destruct (Hinv _ _ Hl) as (k' & _ & _ & _ & _ & _ & Hpi).
    rewrite Hpar in Hpi. destruct Hpi as (_ & pe & pk & Hpe & Htp & Hrule).
    rewrite Ho in Hpe. injection Hpe as <-.
    assert (pk = KPseudoElement) as ->.
    { apply type_name_inj. by rewrite <- Htp. }
    by apply never_append_after_pseudo_element in Hrule. }
  split; [|split; [|split]].
  - intros k v. cbn [exec].
    rewrite (method_spec h f e KPseudoElement k v Ho Ht), Hv, Hp.
    by destruct k.
  - destruct (child e) as [|c] eqn:Hc; [done|].
    destruct (reachable_child_inv h Hreach f e c Ho Hc) as (_ & ce & Hce & Hpc).
    by destruct (Hnopar c ce Hce).
  - exact Hnopar.
  - by apply chain_pseudo_element_last.
Qed.

(** X5. What [stringify()] returns for an object never changes: in every
    store a program reaches later, every object of the store renders as it
    did, a combined selector too whichever chaining calls are made on its
    sides in between; and the chain of a fragment stays the same list. *)
Theorem rendering_is_permanent (h h' : heap) l :
  reachable h -> later h h' -> l < length h ->
  (exists s, stringify h l = Some s /\ stringify h' l = Some s) /\
  (forall e, h !! l = Some (Fragment e) -> chain h' l = chain h l) /\
  (forall s1 c s2, h !! l = Some (Combined s1 c s2) ->
                   h' !! l = Some (Combined s1 c s2)).
Proof.
  intros Hinv%reachable_inv Hlater Hl.
  destruct (later_extends h h' Hinv Hlater) as [_ Hext].
  split; [|split].
  - destruct (stringify_total h l Hinv Hl) as [s Hs]. exists s.
    split; [done|]. by rewrite (stringify_stable h h' l Hinv Hext Hl).
  - intros e Ho. by eapply chain_stable.
  - intros s1 c s2 Ho.
    destruct (Hext _ _ Ho) as ([|s1' c' s2'] & Ho' & Hs); cbn in Hs; [done|].
    by destruct Hs as (-> & -> & ->).
Qed.

Lemma pseudo_reachable : reachable pseudo_store.
Proof.
  by apply (run_reachable
              [builder_call KElement "a"; method_call 0 KPseudoElement "before"]).
Qed.

Lemma pseudo_element_is_terminal_witness :
  reachable pseudo_store /\
  forall k v,
    exec (method_call 1 k v) pseudo_store =
      (Throw (Error (if bool_decide (k = KPseudoElement)
                     then MyElementClass.validError_message
                     else MyElementClass.partsError_message)), pseudo_store).
Proof.
  split; [exact pseudo_reachable|].
  exact (proj1 (pseudo_element_is_terminal pseudo_store 1
                  (new_fragment KPseudoElement "before" (Some 0))
                  pseudo_reachable eq_refl eq_refl)).
Defined.

Lemma rendering_is_permanent_witness :
  reachable sample_store /\
  later sample_store (exec (method_call 3 KAttribute "href") sample_store).2 /\
  5 < length sample_store /\
  exists s,
    stringify sample_store 5 = Some s /\
    stringify (exec (method_call 3 KAttribute "href") sample_store).2 5
      = Some s.
Proof.
  assert (3 < length sample_store) as H3 by (vm_compute; lia).
  assert (5 < length sample_store) as H5 by (vm_compute; lia).
  pose proof (later_one sample_store (method_call 3 KAttribute "href") H3)
    as Hl.
  split; [exact sample_reachable|]. split; [exact Hl|]. split; [exact H5|].
  exact (proj1 (rendering_is_permanent sample_store _ 5
                  sample_reachable Hl H5)).
Defined.

(** ** Selector expressions *)

Lemma valid_kinds_spec ks :
  valid_kinds ks = true <->
  ordered ks = true /\
  forall k, non_repeatable k = true -> occurrences k ks <= 1.
Proof.
  unfold valid_kinds. cbn [forallb]. rewrite !andb_true_iff, !Nat.leb_le.
  split.
  - intros (Ho & He & Hi & Hp & _). split; [done|]. by intros [] Hk.
  - intros (Ho & Hocc). repeat split; try done; by apply Hocc.
Qed.

Lemma valid_kinds_tail k ks : valid_kinds (k :: ks) = true -> valid_kinds ks = true.
Proof.
  rewrite !valid_kinds_spec. intros [Ho Hocc]. split.
  - destruct ks as [|k' ks]; [done|]. cbn in Ho.
    by apply andb_prop in Ho as [_ ?].
  - intros k0 Hk0. specialize (Hocc k0 Hk0). unfold occurrences in *.
    rewrite filter_cons in Hocc. destruct (decide (k = k0)); cbn in Hocc; lia.
Qed.

Lemma valid_kinds_first_violation k ks :
  valid_kinds (k :: ks) = true -> first_violation k ks = Append.
Proof.
  revert k. induction ks as [|k' ks IH]; intros k Hv; [done|].
  cbn [first_violation].
  assert (ordering_rule k k' = Append) as ->.
  { apply valid_kinds_spec in Hv as [Ho Hocc]. cbn in Ho.
    apply andb_prop in Ho as [Hle%Nat.leb_le _].
    assert ((rank k' <? rank k) = false) as Hlt by by apply Nat.ltb_ge.
    unfold ordering_rule. rewrite Hlt.
    destruct (non_repeatable k') eqn:Hn; [|done].
    case_bool_decide as Heq; [|done].
    subst k'. specialize (Hocc k Hn). unfold occurrences in Hocc.
    rewrite !filter_cons in Hocc.
    destruct (decide (k = k)); [cbn in Hocc; lia|done]. }
  apply IH. by eapply valid_kinds_tail.
Qed.

Lemma good_chain_valid ks last : good_chain ks last -> valid_kinds ks = true.
Proof. intros (Ho & _ & Hocc). by apply valid_kinds_spec. Qed.

(** What the chaining calls [rest] do when made one after the other,
    starting on a fragment of kind [k0] whose chain is [pre]. *)
Lemma extend_spec rest :
  forall (h : heap) l e k0 pre,
    heap_inv h -> h !! l = Some (Fragment e) -> type e = type_name k0 ->
    chain h l = Some pre ->
    match first_violation k0 (map fst rest) with
    | Append =>
        exists l' h', extend l rest h = (Return l', h') /\ later h h' /\
                      chain h' l' = Some (pre ++ rest)
    | Duplicate =>
        exists h', extend l rest h =
                     (Throw (Error MyElementClass.validError_message), h') /\
                   later h h'
    | OutOfOrder =>
        exists h', extend l rest h =
                     (Throw (Error MyElementClass.partsError_message), h') /\
                   later h h'
    end.
Proof.
  induction rest as [|[k v] rest IH]; intros h l e k0 pre Hinv Ho Ht Hc.
  - cbn. exists l, h. rewrite app_nil_r. repeat split; [apply later_now|done].
  - pose proof (lookup_lt_Some _ _ _ Ho) as Hl.
    destruct (Hinv _ _ Ho) as (sk & Ht' & _ & _ & Hv & Hp & _).
    set (h1 := <[l:=Fragment (set_child_field e (Ref (length h)))]>
                 (h ++ [Fragment (new_fragment k v (Some l))])).
    assert (extend l ((k, v) :: rest) h =
            match ordering_rule k0 k with
            | Duplicate =>
                (Throw (Error MyElementClass.validError_message), h)
            | OutOfOrder =>
                (Throw (Error MyElementClass.partsError_message), h)
            | Append => extend (length h) rest h1
            end) as ->.
    { cbn [extend fst snd]. unfold bind.
      rewrite (method_spec h l e k0 k v Ho Ht), Hv, Hp.
      by destruct (ordering_rule k0 k). }
    cbn [map first_violation fst].
    destruct (ordering_rule k0 k) eqn:Hrule;
      [exists h; split; [done|apply later_now]..|].
    assert (exec (method_call l k v) h = (Return (Obj (length h)), h1)) as Hex.
    { cbn [exec]. by rewrite (method_spec h l e k0 k v Ho Ht), Hrule. }
    assert (later h h1) as Hl1.
    { replace h1 with (exec (method_call l k v) h).2 by by rewrite Hex.
      by apply later_one. }
    destruct (later_extends h h1 Hinv Hl1) as [Hinv1 _].
    destruct (chain_after_chaining h l e k v _ h1 Hinv Ho Hex)
      as (items & Hitems & _ & Hc1).
    rewrite Hc in Hitems. injection Hitems as <-.
    assert (h1 !! length h = Some (Fragment (new_fragment k v (Some l))))
      as Hnew.
    { unfold h1. rewrite list_lookup_insert_ne by lia.
      by rewrite lookup_app_r, Nat.sub_diag by lia. }
    specialize (IH h1 (length h) _ k (pre ++ [(k, v)]) Hinv1 Hnew eq_refl Hc1).
    destruct (first_violation k (map fst rest)).
    + destruct IH as (h' & -> & Hl'). exists h'. split; [done|].
      by eapply later_trans.
    + destruct IH as (h' & -> & Hl'). exists h'. split; [done|].
      by eapply later_trans.
    + destruct IH as (l' & h' & -> & Hl' & Hc'). exists l', h'.
      split; [done|]. split; [by eapply later_trans|].
      by rewrite Hc', <- app_assoc.
Qed.

Lemma simple_spec (h : heap) k v rest :
  heap_inv h ->
  match first_violation k (map fst rest) with
  | Append =>
      exists l h', build (Simple k v rest) h = (Return l, h') /\ later h h' /\
                   chain h' l = Some ((k, v) :: rest)
  | Duplicate =>
      exists h', build (Simple k v rest) h =
                   (Throw (Error MyElementClass.validError_message), h') /\
                 later h h'
  | OutOfOrder =>
      exists h', build (Simple k v rest) h =
                   (Throw (Error MyElementClass.partsError_message), h') /\
                 later h h'
  end.
Proof.
  intros Hinv.
  destruct (start_effect h k v Hinv) as (Hs & Hl1 & Hinv1 & Hnew & Hc).
  cbn [build]. unfold bind. rewrite Hs.
  pose proof (extend_spec rest _ _ _ k [(k, v)] Hinv1 Hnew eq_refl Hc) as H.
  destruct (first_violation k (map fst rest)).
  - destruct H as (h' & -> & Hl'). exists h'. split; [done|].
    by eapply later_trans.
  - destruct H as (h' & -> & Hl'). exists h'. split; [done|].
    by eapply later_trans.
  - destruct H as (l' & h' & -> & Hl' & Hc'). exists l', h'.
    split; [done|]. split; [by eapply later_trans|done].
Qed.

Lemma chain_valid_kinds (h : heap) l items :
  heap_inv h -> chain h l = Some items -> valid_kinds (map fst items) = true.
Proof.
  intros Hinv Hc. destruct (chain_is_fragment h l _ Hc) as [e Ho].
  destruct (Hinv _ _ Ho) as (k & Ht & _).
  destruct (chain_summary h Hinv l e k Ho Ht) as (items' & Hc' & _ & Hgood).
  rewrite Hc in Hc'. injection Hc' as ->. by eapply good_chain_valid.
Qed.

Lemma build_spec s :
  forall h : heap, heap_inv h ->
    if well_ordered s then
      exists l h', build s h = (Return l, h') /\ later h h' /\
                   l < length h' /\ stringify h' l = Some (render s)
    else
      exists msg h', build s h = (Throw (Error msg), h') /\ later h h' /\
                     (msg = MyElementClass.validError_message \/
                      msg = MyElementClass.partsError_message).
Proof.
  induction s as [k v rest|s1 IH1 c s2 IH2]; intros h Hinv.
  - pose proof (simple_spec h k v rest Hinv) as H. cbn [well_ordered render].
    destruct (first_violation k (map fst rest)) eqn:Hfv.
    + destruct H as (h' & Hb & Hl).
      destruct (valid_kinds (k :: map fst rest)) eqn:Hval.
      { apply valid_kinds_first_violation in Hval. congruence. }
      exists MyElementClass.validError_message, h'. auto.
    + destruct H as (h' & Hb & Hl).
      destruct (valid_kinds (k :: map fst rest)) eqn:Hval.
      { apply valid_kinds_first_violation in Hval. congruence. }
      exists MyElementClass.partsError_message, h'. auto.
    + destruct H as (l & h' & Hb & Hl & Hc).
      destruct (later_extends h h' Hinv Hl) as [Hinv' _].
      rewrite (chain_valid_kinds h' l _ Hinv' Hc : valid_kinds (k :: map fst rest) = true).
      exists l, h'. split; [done|]. split; [done|]. split.
      * destruct (chain_is_fragment h' l _ Hc) as [e Ho].
        by eapply lookup_lt_Some.
      * by apply stringify_of_chain.
  - assert (build (Complex s1 c s2) h =
            match build s1 h with
            | (Return a, h1) =>
                match build s2 h1 with
                | (Return b, h2) => cssSelectorBuilder.combine a c b h2
                | (Throw e, h2) => (Throw e, h2)
                end
            | (Throw e, h1) => (Throw e, h1)
            end) as -> by reflexivity.
    cbn [well_ordered render].
    specialize (IH1 h Hinv). destruct (well_ordered s1); cbn [andb].
    + destruct IH1 as (l1 & h1 & -> & Hl1 & Hlt1 & Hs1).
      destruct (later_extends h h1 Hinv Hl1) as [Hinv1 _].
      specialize (IH2 h1 Hinv1). destruct (well_ordered s2).
      * destruct IH2 as (l2 & h2 & -> & Hl2 & Hlt2 & Hs2).
        destruct (later_extends h1 h2 Hinv1 Hl2) as [Hinv2 Hext2].
        pose proof (extends_length _ _ Hext2) as Hlen.
        assert (call_ok h2 (combine_call l1 c l2)) as Hok by (cbn; lia).
        pose proof (later_one h2 _ Hok) as Hl3. cbn in Hl3.
        destruct (later_extends h2 _ Hinv2 Hl3) as [Hinv3 Hext3].
        exists (length h2), (h2 ++ [Combined l1 c l2]).
        split; [done|].
        split; [exact (later_trans _ _ _ Hl1 (later_trans _ _ _ Hl2 Hl3))|].
        split; [rewrite length_app; cbn; lia|].
        rewrite (stringify_combined _ (length h2) l1 c l2 Hinv3)
          by by rewrite lookup_app_r, Nat.sub_diag by lia.
        rewrite (stringify_stable h2 _ l2 Hinv2 Hext3 Hlt2), Hs2.
        rewrite (stringify_stable h1 _ l1 Hinv1
                   (extends_trans _ _ _ Hext2 Hext3) Hlt1), Hs1.
        done.
      * destruct IH2 as (msg & h2 & -> & Hl2 & Hmsg).
        exists msg, h2. split; [done|]. split; [by eapply later_trans|done].
    + destruct IH1 as (msg & h1 & -> & Hl1 & Hmsg). by exists msg, h1.
Qed.

(** X7. A selector expression all of whose chains follow the grammar
    element?, id?, class*, attribute*, pseudo-class*, pseudo-element?
    builds without error, from any store, and [stringify()] of the result is
    the string the expression stands for: the chains rendered without
    separators, the sides of each [combine] joined by space, combinator,
    space. *)
Theorem build_renders (h : heap) s :
  reachable h -> well_ordered s = true ->
  exists l h',
    build s h = (Return l, h') /\ reachable h' /\
    stringify h' l = Some (render s).
Proof.
  intros Hreach Hwo. pose proof (build_spec s h (reachable_inv h Hreach)) as H.
  rewrite Hwo in H. destruct H as (l & h' & Hb & Hl & _ & Hs).
  exists l, h'. split; [done|]. split; [by eapply later_reachable|done].
Qed.

Lemma build_renders_witness :
  reachable [] /\ well_ordered sample_selector = true /\
  exists l h',
    build sample_selector [] = (Return l, h') /\ reachable h' /\
    stringify h' l =
      Some "div#main.container.draggable + table#data ~ tr:nth-of-type(even)   td:nth-of-type(even)".
Proof.
  split; [exact reachable_init|]. split; [reflexivity|].
  exact (build_renders [] sample_selector reachable_init eq_refl).
Defined.

(** X8. A selector expression one of whose chains breaks the grammar does
    not build: it throws an error with the duplicate-kind or the ordering
    message, and returns no selector. *)
Theorem build_rejects (h : heap) s :
  reachable h -> well_ordered s = false ->
  exists msg h',
    build s h = (Throw (Error msg), h') /\ reachable h' /\
    (msg = "Element, id and pseudo-element should not occur more then one time inside the selector" \/
     msg = "Selector parts should be arranged in the following order: element, id, class, attribute, pseudo-class, pseudo-element").
Proof.
  intros Hreach Hwo. pose proof (build_spec s h (reachable_inv h Hreach)) as H.
  rewrite Hwo in H. destruct H as (msg & h' & Hb & Hl & Hmsg).
  exists msg, h'. split; [done|]. split; [by eapply later_reachable|done].
Qed.

Lemma build_rejects_witness :
  reachable [] /\
  exists msg h',
    build (Complex (Simple KElement "div" [(KClass, "a")]) ">"
             (Simple KPseudoElement "after" [(KPseudoElement, "before")])) []
      = (Throw (Error msg), h') /\ reachable h' /\
    (msg = "Element, id and pseudo-element should not occur more then one time inside the selector" \/
     msg = "Selector parts should be arranged in the following order: element, id, class, attribute, pseudo-class, pseudo-element").
Proof.
  split; [exact reachable_init|].
  exact (build_rejects []
           (Complex (Simple KElement "div" [(KClass, "a")]) ">"
              (Simple KPseudoElement "after" [(KPseudoElement, "before")]))
           reachable_init eq_refl).
Defined.

(** * The claims on [combine], on failures and on mutation *)

Lemma combined_receiver (h : heap) l s1 c s2 k v :
  h !! l = Some (Combined s1 c s2) ->
  exec (method_call l k v) h = (Throw TypeError, h).
Proof.
  intros Ho.
  destruct k; cbn;
    unfold fmap_M, bind, MyElementClass.element, MyElementClass.id,
      MyElementClass.class, MyElementClass.attr,
      MyElementClass.pseudoClass, MyElementClass.pseudoElement,
      self, bind; by rewrite Ho.
Qed.

(** The call [combine(selector1, c, selector2)] in a reachable store. *)
Lemma combine_renders (h : heap) selector1 c selector2 a b :
  reachable h -> selector1 < length h -> selector2 < length h ->
  stringify h selector1 = Some a -> stringify h selector2 = Some b ->
  let h' := h ++ [Combined selector1 c selector2] in
  cssSelectorBuilder.combine selector1 c selector2 h = (Return (length h), h')
  /\ reachable h' /\ extends h h' /\
  stringify h' (length h) = Some (a +:+ " " +:+ c +:+ " " +:+ b).
Proof.
  intros Hreach Hlt1 Hlt2 Ha Hb h'.
  pose proof (reachable_inv h Hreach) as Hinv.
  assert (reachable h') as Hreach'.
  { apply (reachable_step h (combine_call selector1 c selector2) Hreach).
    by split. }
  pose proof (reachable_inv h' Hreach') as Hinv'.
  pose proof (extends_snoc h (Combined selector1 c selector2)) as Hext.
  split; [done|]. split; [done|]. split; [done|].
  rewrite (stringify_combined h' (length h) selector1 c selector2 Hinv')
    by by (unfold h'; rewrite lookup_app_r, Nat.sub_diag by lia).
  rewrite !(stringify_stable h h') by done. by rewrite Ha, Hb.
Qed.

(** C4. For [combine(selector1, combinator, selector2)] on two selectors of
    a store built with the public surface: the call returns a new object, and
    [stringify()] of that object, then and after any later calls, is
    [selector1.stringify()], a space, the combinator as it was passed, a
    space, [selector2.stringify()].  With the combinator [" "] three spaces
    lie between the two sides.  Either side may itself come from [combine]:
    every such object of the store is rendered by the same rule. *)
Theorem combined_stringify (h : heap) selector1 combinator selector2 :
  reachable h -> selector1 < length h -> selector2 < length h ->
  exists left right,
    stringify h selector1 = Some left /\
    stringify h selector2 = Some right /\
    (exists l h',
       cssSelectorBuilder.combine selector1 combinator selector2 h
         = (Return l, h') /\
       h !! l = None /\
       stringify h' l =
         Some (left +:+ " " +:+ combinator +:+ " " +:+ right) /\
       forall h'', later h' h'' ->
         stringify h'' selector1 = Some left /\
         stringify h'' selector2 = Some right /\
         stringify h'' l =
           Some (left +:+ " " +:+ combinator +:+ " " +:+ right)) /\
    (exists l h',
       cssSelectorBuilder.combine selector1 " " selector2 h = (Return l, h') /\
       stringify h' l = Some (left +:+ "   " +:+ right)) /\
    (forall l0 s1 c s2, h !! l0 = Some (Combined s1 c s2) ->
       exists a b,
         stringify h s1 = Some a /\ stringify h s2 = Some b /\
         stringify h l0 = Some (a +:+ " " +:+ c +:+ " " +:+ b)).
Proof.
  intros Hreach Hlt1 Hlt2. pose proof (reachable_inv h Hreach) as Hinv.
  destruct (stringify_total h selector1 Hinv Hlt1) as [a Ha].
  destruct (stringify_total h selector2 Hinv Hlt2) as [b Hb].
  exists a, b. split; [done|]. split; [done|]. split; [|split].
  - destruct (combine_renders h selector1 combinator selector2 a b
                Hreach Hlt1 Hlt2 Ha Hb) as (Hc & Hreach' & Hext & Hs).
    eexists _, _. split; [exact Hc|]. split; [by apply lookup_ge_None_2|].
    split; [done|]. intros h'' Hlater.
    pose proof (reachable_inv _ Hreach') as Hinv'.
    destruct (later_extends _ h'' Hinv' Hlater) as [_ Hext''].
    pose proof (extends_length _ _ Hext) as Hlen.
    rewrite length_app in Hlen. cbn in Hlen.
    rewrite !(stringify_stable _ h'' _ Hinv' Hext'')
      by (rewrite length_app; cbn; lia).
    rewrite !(stringify_stable h _ _ Hinv Hext) by done. by rewrite Ha, Hb.
  - destruct (combine_renders h selector1 " " selector2 a b
                Hreach Hlt1 Hlt2 Ha Hb) as (Hc & _ & _ & Hs).
    eexists _, _. split; [exact Hc|]. exact Hs.
  - intros l0 s1 c s2 Ho.
    pose proof (lookup_lt_Some _ _ _ Ho) as Hl.
    destruct (Hinv _ _ Ho) as [Hs1 Hs2].
    destruct (stringify_total h s1 Hinv) as [x Hx]; [lia|].
    destruct (stringify_total h s2 Hinv) as [y Hy]; [lia|].
    exists x, y. by rewrite (stringify_combined h l0 _ _ _ Hinv Ho), Hx, Hy.
Qed.

Lemma combined_stringify_witness :
  reachable sample_store /\ 5 < length sample_store /\
  4 < length sample_store /\
  exists left right,
    stringify sample_store 5 = Some left /\
    stringify sample_store 4 = Some right /\
    (exists l h',
       cssSelectorBuilder.combine 5 " " 4 sample_store = (Return l, h') /\
       sample_store !! l = None /\
       stringify h' l = Some (left +:+ " " +:+ " " +:+ " " +:+ right) /\
       forall h'', later h' h'' ->
         stringify h'' 5 = Some left /\
         stringify h'' 4 = Some right /\
         stringify h'' l = Some (left +:+ " " +:+ " " +:+ " " +:+ right)) /\
    (exists l h',
       cssSelectorBuilder.combine 5 " " 4 sample_store = (Return l, h') /\
       stringify h' l = Some (left +:+ "   " +:+ right)) /\
    (forall l0 s1 c s2, sample_store !! l0 = Some (Combined s1 c s2) ->
       exists a b,
         stringify sample_store s1 = Some a /\
         stringify sample_store s2 = Some b /\
         stringify sample_store l0 = Some (a +:+ " " +:+ c +:+ " " +:+ b)).
Proof.
  assert (5 < length sample_store) as H5 by (vm_compute; lia).
  assert (4 < length sample_store) as H4 by (vm_compute; lia).
  split; [exact sample_reachable|]. split; [exact H5|]. split; [exact H4|].
  exact (combined_stringify sample_store 5 " " 4 sample_reachable H5 H4).
Defined.

(** C6, as the source has it.  [combine] returns for every combinator and
    stores it as given; the six start operations return; [stringify()]
    returns a string for every object of a store built with the public
    surface.  A chaining call on a fragment that throws throws an error with
    one of the two messages.  A chaining call on what [combine] returned
    throws a type error, that object having [stringify] only. *)
Theorem failure_modes (h : heap) :
  reachable h ->
  (forall selector1 combinator selector2,
     cssSelectorBuilder.combine selector1 combinator selector2 h =
       (Return (length h), h ++ [Combined selector1 combinator selector2])) /\
  (forall k v, exists l h', start k v h = (Return l, h')) /\
  (forall l, l < length h -> exists s, stringify h l = Some s) /\
  (forall this e k v err h',
     h !! this = Some (Fragment e) ->
     exec (method_call this k v) h = (Throw err, h') ->
     err = Error "Element, id and pseudo-element should not occur more then one time inside the selector" \/
     err = Error "Selector parts should be arranged in the following order: element, id, class, attribute, pseudo-class, pseudo-element") /\
  (forall selector1 combinator selector2 l h' k v,
     cssSelectorBuilder.combine selector1 combinator selector2 h
       = (Return l, h') ->
     exec (method_call l k v) h' = (Throw TypeError, h')) /\
  (forall this selector1 combinator selector2 k v,
     h !! this = Some (Combined selector1 combinator selector2) ->
     exec (method_call this k v) h = (Throw TypeError, h)) /\
  (forall this o k v err h',
     h !! this = Some o ->
     exec (method_call this k v) h = (Throw err, h') ->
     match o with
     | Fragment _ =>
         err = Error MyElementClass.validError_message \/
         err = Error MyElementClass.partsError_message
     | Combined _ _ _ => err = TypeError
     end).
Proof.
  intros Hinv%reachable_inv.
  assert (Hfrag : forall this e k v err h',
     h !! this = Some (Fragment e) ->
     exec (method_call this k v) h = (Throw err, h') ->
     err = Error MyElementClass.validError_message \/
     err = Error MyElementClass.partsError_message).
  { intros this e k v err h' Ho Hex.
    destruct (Hinv _ _ Ho) as (sk & Ht & _ & _ & Hv & Hp & _).
    cbn [exec] in Hex.
    rewrite (method_spec h this e sk k v Ho Ht), Hv, Hp in Hex.
    destruct (ordering_rule sk k); simplify_eq; auto. }
  split; [done|]. split; [|split; [|split; [|split; [|split]]]].
  - intros k v. rewrite start_spec. eauto.
  - intros l Hl. by apply stringify_total.
  - exact Hfrag.
  - intros s1 c s2 l h' k v [= <- <-].
    apply (combined_receiver _ _ s1 c s2).
    by rewrite lookup_app_r, Nat.sub_diag by lia.
  - intros this s1 c s2 k v Ho. by eapply combined_receiver.
  - intros this [e|s1 c s2] k v err h' Ho Hex.
    + by eapply Hfrag.
    + rewrite (combined_receiver h this s1 c s2 k v Ho) in Hex.
      by injection Hex as <- _.
Qed.

Lemma failure_modes_witness :
  reachable sample_store /\
  (forall l, l < length sample_store ->
             exists s, stringify sample_store l = Some s) /\
  (forall k v,
     exec (method_call 5 k v) sample_store = (Throw TypeError, sample_store)).
Proof.
  pose proof (failure_modes sample_store sample_reachable)
    as (_ & _ & Hs & _ & _ & Hc & _).
  split; [exact sample_reachable|]. split; [exact Hs|].
  intros k v. exact (Hc 5 3 "+" 4 k v eq_refl).
Defined.

(** C6 as the claim states it fails: a chaining call on what [combine]
    returned throws a type error, which is neither of the two validation
    errors; so does [stringify()] of the facade itself. *)
Lemma failure_modes_counterexample :
  reachable sample_store /\
  cssSelectorBuilder.combine 3 "+" 4 sample_store =
    (Return 6, sample_store ++ [Combined 3 "+" 4]) /\
  exec (method_call 6 KClass "x") (sample_store ++ [Combined 3 "+" 4]) =
    (Throw TypeError, sample_store ++ [Combined 3 "+" 4]) /\
  cssSelectorBuilder.stringify sample_store = (Throw TypeError, sample_store)
  /\ TypeError <> Error MyElementClass.validError_message
  /\ TypeError <> Error MyElementClass.partsError_message.
Proof.
  split; [exact sample_reachable|]. by repeat split.
Qed.

(** C7, as the source has it.  A chaining call that returns overwrites the
    [child] field of the fragment it was made on: the field then refers to
    the new fragment, which it did not before.  That is the only change a
    call makes to an object of the store: every other object, and the
    receiver of a call that throws, is after the call what it was before;
    and no call changes what [stringify()] returns for an object of the
    store. *)
Theorem only_child_is_overwritten (h : heap) c :
  reachable h ->
  (forall l e k v r,
     c = method_call l k v -> h !! l = Some (Fragment e) ->
     (exec c h).1 = Return r ->
     exists new g,
       r = Obj new /\ h !! new = None /\
       (exec c h).2 !! new = Some (Fragment g) /\
       (exec c h).2 !! l = Some (Fragment (set_child_field e (Ref new))) /\
       child e <> Ref new /\
       (exec c h).2 !! l <> h !! l) /\
  (forall l o, h !! l = Some o ->
     (exec c h).2 !! l = Some o \/
     exists e k v r,
       c = method_call l k v /\ o = Fragment e /\ (exec c h).1 = Return r) /\
  (forall l, l < length h -> stringify (exec c h).2 l = stringify h l).
Proof.
  intros Hreach. pose proof (reachable_inv h Hreach) as Hinv.
  pose proof (reachable_child_inv h Hreach) as Hch.
  pose proof (exec_effect h c Hinv) as Heff.
  split; [|split].
  - intros l e k v r -> Ho Hr. clear Heff.
    pose proof (lookup_lt_Some _ _ _ Ho) as Hl.
    destruct (Hinv _ _ Ho) as (sk & Ht & _).
    cbn [exec] in *. rewrite (method_spec h l e sk k v Ho Ht) in *.
    destruct (ordering_rule sk k); [done..|]. cbn [fst snd] in *.
    injection Hr as <-.
    assert (child e <> Ref (length h)) as Hne.
    { intros Hc. destruct (Hch l e _ Ho Hc) as (_ & ce & Hce%lookup_lt_Some & _).
      lia. }
    assert (<[l:=Fragment (set_child_field e (Ref (length h)))]>
              (h ++ [Fragment (new_fragment k v (Some l))]) !! l =
            Some (Fragment (set_child_field e (Ref (length h))))) as Hnew.
    { apply list_lookup_insert_eq. rewrite length_app. cbn. lia. }
    exists (length h), (new_fragment k v (Some l)).
    split; [done|]. split; [by apply lookup_ge_None_2|]. split.
    { rewrite list_lookup_insert_ne by lia.
      by rewrite lookup_app_r, Nat.sub_diag by lia. }
    split; [done|]. split; [done|].
    rewrite Hnew, Ho. intros [= Heq]. apply Hne.
    apply (f_equal child) in Heq. by cbn in Heq.
  - intros l o Ho. destruct Heff; auto using lookup_snoc_old.
    destruct (decide (l = this)) as [->|Hne].
    + right. exists e, k, v, (Obj (length h)). repeat split. congruence.
    + left. rewrite list_lookup_insert_ne by done. by apply lookup_snoc_old.
  - intros l Hl. apply stringify_stable; [done| |done].
    by eapply effect_extends.
Qed.

Lemma only_child_is_overwritten_witness :
  reachable sample_store /\
  exists new g,
    Obj 6 = Obj new /\ sample_store !! new = None /\
    (exec (method_call 3 KAttribute "href") sample_store).2 !! new
      = Some (Fragment g) /\
    (exec (method_call 3 KAttribute "href") sample_store).2 !! 3 =
      Some (Fragment
              (set_child_field (new_fragment KClass "draggable" (Some 2))
                 (Ref new))) /\
    child (new_fragment KClass "draggable" (Some 2)) <> Ref new /\
    (exec (method_call 3 KAttribute "href") sample_store).2 !! 3
      <> sample_store !! 3.
Proof.
  split; [exact sample_reachable|].
  exact (proj1 (only_child_is_overwritten sample_store
                  (method_call 3 KAttribute "href") sample_reachable)
           3 (new_fragment KClass "draggable" (Some 2)) KAttribute "href"
           (Obj 6) eq_refl eq_refl eq_refl).
Defined.

(** * Chain expressions, call by call *)

Lemma extend_step (h : heap) l e k0 k v rest :
  heap_inv h -> h !! l = Some (Fragment e) -> type e = type_name k0 ->
  extend l ((k, v) :: rest) h =
    match ordering_rule k0 k with
    | Duplicate => (Throw (Error MyElementClass.validError_message), h)
    | OutOfOrder => (Throw (Error MyElementClass.partsError_message), h)
    | Append =>
        extend (length h) rest
          (<[l:=Fragment (set_child_field e (Ref (length h)))]>
             (h ++ [Fragment (new_fragment k v (Some l))]))
    end.
Proof.
  intros Hinv Ho Ht.
  destruct (Hinv _ _ Ho) as (sk & _ & _ & _ & Hv & Hp & _).
  cbn [extend fst snd]. unfold bind.
  rewrite (method_spec h l e k0 k v Ho Ht), Hv, Hp.
  by destruct (ordering_rule k0 k).
Qed.

Lemma append_step (h : heap) l e k0 k v :
  heap_inv h -> h !! l = Some (Fragment e) -> type e = type_name k0 ->
  ordering_rule k0 k = Append ->
  let h1 := <[l:=Fragment (set_child_field e (Ref (length h)))]>
              (h ++ [Fragment (new_fragment k v (Some l))]) in
  later h h1 /\ heap_inv h1 /\
  h1 !! length h = Some (Fragment (new_fragment k v (Some l))).
Proof.
  intros Hinv Ho Ht Hrule h1.
  pose proof (lookup_lt_Some _ _ _ Ho) as Hl.
  assert (exec (method_call l k v) h = (Return (Obj (length h)), h1)) as Hex.
  { cbn [exec]. by rewrite (method_spec h l e k0 k v Ho Ht), Hrule. }
  assert (later h h1) as Hl1.
  { replace h1 with (exec (method_call l k v) h).2 by by rewrite Hex.
    by apply later_one. }
  split; [done|]. split; [by destruct (later_extends h h1 Hinv Hl1)|].
  unfold h1. rewrite list_lookup_insert_ne by lia.
  by rewrite lookup_app_r, Nat.sub_diag by lia.
Qed.

(** Where a run of chaining calls stops: the calls [pre] before the first
    one the ordering rule rejects return, the rejected call [item] throws on
    what they returned, and the run ends there, in the store they left. *)
Lemma extend_stops rest :
  forall (h : heap) l e k0 vd msg,
    heap_inv h -> h !! l = Some (Fragment e) -> type e = type_name k0 ->
    first_violation k0 (map fst rest) = vd ->
    (vd = Duplicate /\ msg = MyElementClass.validError_message) \/
    (vd = OutOfOrder /\ msg = MyElementClass.partsError_message) ->
    exists pre item post l1 h1,
      rest = pre ++ item :: post /\
      extend l pre h = (Return l1, h1) /\
      later h h1 /\
      exec (method_call l1 item.1 item.2) h1 = (Throw (Error msg), h1) /\
      extend l rest h = (Throw (Error msg), h1).
Proof.
  induction rest as [|[k v] rest IH]; intros h l e k0 vd msg Hinv Ho Ht Hfv Hvd.
  - cbn in Hfv. destruct Hvd as [[-> _]|[-> _]]; discriminate.
  - cbn [map first_violation fst] in Hfv.
    pose proof (extend_step h l e k0 k v rest Hinv Ho Ht) as Hstep.
    destruct (Hinv _ _ Ho) as (sk & _ & _ & _ & Hv & Hp & _).
    destruct (ordering_rule k0 k) eqn:Hrule.
    + exists [], (k, v), rest, l, h.
      assert (msg = MyElementClass.validError_message) as ->.
      { destruct Hvd as [[_ ->]|[-> _]]; [done|discriminate]. }
      split; [done|]. split; [done|]. split; [apply later_now|].
      split; [|done]. cbn [exec fst snd].
      by rewrite (method_spec h l e k0 k v Ho Ht), Hrule, Hv.
    + exists [], (k, v), rest, l, h.
      assert (msg = MyElementClass.partsError_message) as ->.
      { destruct Hvd as [[-> _]|[_ ->]]; [discriminate|done]. }
      split; [done|]. split; [done|]. split; [apply later_now|].
      split; [|done]. cbn [exec fst snd].
      by rewrite (method_spec h l e k0 k v Ho Ht), Hrule, Hp.
    + destruct (append_step h l e k0 k v Hinv Ho Ht Hrule)
        as (Hl1 & Hinv1 & Hnew).
      destruct (IH _ _ _ k vd msg Hinv1 Hnew eq_refl Hfv Hvd)
        as (pre & item & post & l1 & h1 & -> & Hpre & Hlater & Hitem & Hall).
      exists ((k, v) :: pre), item, post, l1, h1.
      split; [done|]. split.
      { rewrite (extend_step h l e k0 k v pre Hinv Ho Ht), Hrule. exact Hpre. }
      split; [by eapply later_trans|]. split; [done|].
      rewrite Hstep. exact Hall.
Qed.

Lemma simple_stops (h : heap) k v rest vd msg :
  reachable h ->
  first_violation k (map fst rest) = vd ->
  (vd = Duplicate /\ msg = MyElementClass.validError_message) \/
  (vd = OutOfOrder /\ msg = MyElementClass.partsError_message) ->
  exists pre item post l h',
    rest = pre ++ item :: post /\
    build (Simple k v pre) h = (Return l, h') /\
    reachable h' /\
    chain h' l = Some ((k, v) :: pre) /\
    exec (method_call l item.1 item.2) h' = (Throw (Error msg), h') /\
    build (Simple k v rest) h = (Throw (Error msg), h').
Proof.
  intros Hreach Hfv Hvd. pose proof (reachable_inv h Hreach) as Hinv.
  destruct (start_effect h k v Hinv) as (Hs & Hl0 & Hinv0 & Hnew & Hc).
  destruct (extend_stops rest _ _ _ k vd msg Hinv0 Hnew eq_refl Hfv Hvd)
    as (pre & item & post & l1 & h1 & Hrest & Hpre & Hlater & Hitem & Hall).
  exists pre, item, post, l1, h1. split; [done|].
  assert (build (Simple k v pre) h = (Return l1, h1)) as Hbuild.
  { cbn [build]. unfold bind. by rewrite Hs. }
  split; [done|].
  split; [by eapply later_reachable, later_trans|]. split.
  - pose proof (simple_spec h k v pre Hinv) as Hspec.
    destruct (first_violation k (map fst pre));
      [destruct Hspec as (? & Hb & _); congruence..|].
    destruct Hspec as (l' & h' & Hb & _ & Hc').
    rewrite Hbuild in Hb. by injection Hb as <- <-.
  - split; [done|]. cbn [build]. unfold bind. by rewrite Hs.
Qed.

(** X6. A chain expression [builder.k(v).k1(v1)...kn(vn)] is decided by the
    first call the ordering rule does not let through.  When every call is
    let through, it returns a fragment whose chain is the list of calls as
    written and whose rendering is the concatenation of their renderings.
    Otherwise the calls [pre] before the rejected one return a fragment [l]
    in a store [h']; the rejected call throws its message on [l], the
    duplicate-kind or the ordering one, without changing [h']; and the whole
    expression throws that message and ends in that same store [h']: the
    calls [post] after the rejected one are not made. *)
Theorem chain_expression_outcome (h : heap) k v rest :
  reachable h ->
  match first_violation k (map fst rest) with
  | Append =>
      exists l h',
        build (Simple k v rest) h = (Return l, h') /\ reachable h' /\
        chain h' l = Some ((k, v) :: rest) /\
        stringify h' l = Some (concat_strings (map rendering ((k, v) :: rest)))
  | Duplicate =>
      exists pre item post l h',
        rest = pre ++ item :: post /\
        build (Simple k v pre) h = (Return l, h') /\ reachable h' /\
        chain h' l = Some ((k, v) :: pre) /\
        exec (method_call l item.1 item.2) h' =
          (Throw (Error "Element, id and pseudo-element should not occur more then one time inside the selector"), h') /\
        build (Simple k v rest) h =
          (Throw (Error "Element, id and pseudo-element should not occur more then one time inside the selector"), h')
  | OutOfOrder =>
      exists pre item post l h',
        rest = pre ++ item :: post /\
        build (Simple k v pre) h = (Return l, h') /\ reachable h' /\
        chain h' l = Some ((k, v) :: pre) /\
        exec (method_call l item.1 item.2) h' =
          (Throw (Error "Selector parts should be arranged in the following order: element, id, class, attribute, pseudo-class, pseudo-element"), h') /\
        build (Simple k v rest) h =
          (Throw (Error "Selector parts should be arranged in the following order: element, id, class, attribute, pseudo-class, pseudo-element"), h')
  end.
Proof.
  intros Hreach. pose proof (reachable_inv h Hreach) as Hinv.
  destruct (first_violation k (map fst rest)) eqn:Hfv.
  - apply (simple_stops h k v rest Duplicate _ Hreach Hfv). by left.
  - apply (simple_stops h k v rest OutOfOrder _ Hreach Hfv). by right.
  - pose proof (simple_spec h k v rest Hinv) as H. rewrite Hfv in H.
    destruct H as (l & h' & Hb & Hl & Hc). exists l, h'.
    destruct (later_extends h h' Hinv Hl) as [Hinv' _].
    split; [done|]. split; [by eapply later_reachable|]. split; [done|].
    by apply stringify_of_chain.
Qed.

Lemma chain_expression_outcome_witness :
  reachable sample_store /\
  exists pre item post l h',
    [(KClass, "c"); (KId, "again"); (KClass, "d")] = pre ++ item :: post /\
    build (Simple KId "main" pre) sample_store = (Return l, h') /\
    reachable h' /\
    chain h' l = Some ((KId, "main") :: pre) /\
    exec (method_call l item.1 item.2) h' =
      (Throw (Error "Selector parts should be arranged in the following order: element, id, class, attribute, pseudo-class, pseudo-element"), h') /\
    build (Simple KId "main" [(KClass, "c"); (KId, "again"); (KClass, "d")])
      sample_store =
      (Throw (Error "Selector parts should be arranged in the following order: element, id, class, attribute, pseudo-class, pseudo-element"), h').
Proof.
  split; [exact sample_reachable|].
  exact (chain_expression_outcome sample_store KId "main"
           [(KClass, "c"); (KId, "again"); (KClass, "d")] sample_reachable).
Defined.
